(** * fomu-workshop: the LiteX SoC description [litex/workshop.py]

    A shallow embedding of [litex/workshop.py]: the CSR table of [BaseSoC],
    the constructor [BaseSoC.__init__] with its memory-region registration
    and its in-place edits of the toolchain command templates, and the
    command-line entry point [main].

    Python objects that the constructor mutates (the template lists of
    [platform.toolchain]) live in an explicit store that is threaded through
    a state-and-exception monad: as in Python, what was written before an
    exception is raised stays written. *)

From stdpp Require Import base strings list gmap pretty.
From Stdlib Require Import Ascii.

(** ** Python values and exceptions *)

(** The values that reach [str()] and [str.format] in this file: the seed is
    the integer [0] by default and a string when it comes from the command
    line; the placer is a string. *)
Inductive PyVal :=
  | PyInt (z : Z)
  | PyStr (s : string).

(** [str(v)]: decimal rendering for an [int], the string itself for a [str]. *)
Definition str (v : PyVal) : string :=
  match v with
  | PyInt z => pretty z
  | PyStr s => s
  end.

(** The error kinds.  [IndexError] is Python's own (a template list shorter
    than the position that is edited); [InvalidConfiguration] is what
    [argparse] reports through [parser.error] (usage text, exit status 2);
    the others are the configuration-time errors of the composition layer. *)
Inductive Error :=
  | DuplicateIndex
  | Overlap
  | InvalidSize
  | DuplicateOverride
  | InvalidConfiguration
  | IndexError.

Inductive result (A : Type) :=
  | Ok (a : A)
  | Err (e : Error).
Arguments Ok {A} a.
Arguments Err {A} e.

Definition is_Ok {A} (r : result A) : bool :=
  match r with Ok _ => true | Err _ => false end.

(** ** The CSR table *)

(** The items of the dict literal assigned to [SoCCore.csr_map], in the order
    they are written. *)
Definition csr_map_items : list (string * nat) :=
  [ ("ctrl",           0);
    ("crg",            1);
    ("uart_phy",       2);
    ("uart",           3);
    ("identifier_mem", 4);
    ("timer0",         5);
    ("cpu_or_bridge",  8);
    ("usb",            9);
    ("picorvspi",      10);
    ("touch",          11);
    ("reboot",         12);
    ("rgb",            13);
    ("version",        14) ].

(** A dict display stores its items from left to right, a later item
    replacing an earlier one with the same key. *)
Definition dict_of_items {V} (items : list (string * V)) : gmap string V :=
  foldl (λ d kv, <[kv.1 := kv.2]> d) ∅ items.

Definition csr_map : gmap string nat := dict_of_items csr_map_items.

(** ** CSR slot allocation *)

Module AddressSpaceAllocator.

Record CsrSlot := { name : string; index : nat }.

Definition indices (slots : list CsrSlot) : list nat := index <$> slots.

(** Walks up from [i] while the index is taken; [fuel] bounds the walk. *)
Fixpoint lowest_unused_from (used : list nat) (fuel i : nat) : nat :=
  match fuel with
  | 0 => i
  | S fuel' =>
      if decide (i ∈ used) then lowest_unused_from used fuel' (S i) else i
  end.

(** Among [0 .. length used] at least one index is free, so [length used]
    steps are enough. *)
Definition lowest_unused (used : list nat) : nat :=
  lowest_unused_from used (length used) 0.

(** Modelled from the spec: the registration function of the CSR allocator
    (it belongs to the SoC integration layer, which [workshop.py] only
    configures through [csr_map]).  With an index given, the index must not
    be taken by a registered slot, else [DuplicateIndex]; with none, the
    lowest unused non-negative integer is assigned.  The allocator is
    write-once: slots are only ever added. *)
Definition register (slots : list CsrSlot) (n : string)
    (requested_index : option nat) : result (CsrSlot * list CsrSlot) :=
  match requested_index with
  | Some i =>
      if decide (i ∈ indices slots) then Err DuplicateIndex
      else let s := {| name := n; index := i |} in Ok (s, slots ++ [s])
  | None =>
      let s := {| name := n; index := lowest_unused (indices slots) |} in
      Ok (s, slots ++ [s])
  end.

(** A sequence of registrations, each with an explicit index or with none;
    the slots of the accepted ones are kept, a rejected one leaves the
    allocator as it was. *)
Fixpoint register_all (slots : list CsrSlot)
    (reqs : list (string * option nat)) : list CsrSlot :=
  match reqs with
  | [] => slots
  | (n, i) :: reqs' =>
      match register slots n i with
      | Ok (_, slots') => register_all slots' reqs'
      | Err _ => register_all slots reqs'
      end
  end.

(** Modelled from the spec: [finalize], the name-to-index table handed to
    the later stages. *)
Definition finalize (slots : list CsrSlot) : gmap string nat :=
  dict_of_items ((λ s, (name s, index s)) <$> slots).

End AddressSpaceAllocator.

(** ** Memory regions *)

Module MemoryRegionRegistry.

Record MemoryRegion := {
  name : string;
  base_address : N;
  size : N;
  bus_id : nat;
}.

(** The addresses of a region: the half-open interval [base, base+size). *)
Definition contains (r : MemoryRegion) (a : N) : Prop :=
  (base_address r ≤ a ∧ a < base_address r + size r)%N.

(** Two regions conflict when they sit on the same bus and their intervals
    have an address in common. *)
Definition intersects (r1 r2 : MemoryRegion) : bool :=
  bool_decide (bus_id r1 = bus_id r2) &&
  (N.max (base_address r1) (base_address r2)
     <? N.min (base_address r1 + size r1) (base_address r2 + size r2))%N.

(** Modelled from the spec: [register_mem], the region registration of the
    SoC integration layer, which [workshop.py] calls for the SPRAM.  A size
    of zero is [InvalidSize], whatever the bus and the address; a region
    whose interval meets that of a registered region on the same bus is
    [Overlap]; regions on different buses are not compared. *)
Definition register (regions : list MemoryRegion) (n : string)
    (base sz : N) (bus : nat) : result (MemoryRegion * list MemoryRegion) :=
  if (sz =? 0)%N then Err InvalidSize
  else
    let r := {| name := n; base_address := base; size := sz; bus_id := bus |} in
    if existsb (intersects r) regions then Err Overlap
    else Ok (r, regions ++ [r]).

(** A sequence of registrations: accepted regions are kept, a rejected
    registration leaves the registry as it was. *)
Fixpoint register_all (regions : list MemoryRegion)
    (reqs : list (string * N * N * nat)) : list MemoryRegion :=
  match reqs with
  | [] => regions
  | (n, base, sz, bus) :: reqs' =>
      match register regions n base sz bus with
      | Ok (_, regions') => register_all regions' reqs'
      | Err _ => register_all regions reqs'
      end
  end.

(** No two registered regions of one bus have an address in common. *)
Definition pairwise_disjoint (regions : list MemoryRegion) : Prop :=
  ∀ i j r1 r2,
    i ≠ j → regions !! i = Some r1 → regions !! j = Some r2 →
    bus_id r1 = bus_id r2 →
    ∀ a, ¬ (contains r1 a ∧ contains r2 a).

End MemoryRegionRegistry.

(** ** The toolchain command templates *)

(** [platform.toolchain]: the two template lists that the constructor edits.
    Their contents are set by the platform's toolchain class and are taken
    as they come. *)
Record Toolchain := {
  nextpnr_yosys_template : list string;
  nextpnr_build_template : list string;
}.

Inductive Template := YosysTemplate | BuildTemplate.

#[global] Instance Template_eq_dec : EqDecision Template.
Proof. solve_decision. Defined.

Definition get_template (t : Template) (tc : Toolchain) : list string :=
  match t with
  | YosysTemplate => nextpnr_yosys_template tc
  | BuildTemplate => nextpnr_build_template tc
  end.

Definition set_template (t : Template) (l : list string) (tc : Toolchain)
    : Toolchain :=
  match t with
  | YosysTemplate =>
      {| nextpnr_yosys_template := l;
         nextpnr_build_template := nextpnr_build_template tc |}
  | BuildTemplate =>
      {| nextpnr_yosys_template := nextpnr_yosys_template tc;
         nextpnr_build_template := l |}
  end.

(** The store: the toolchain of the platform and the commands handed to the
    external tools so far. *)
Record World := {
  toolchain : Toolchain;
  spawned : list string;
}.

(** ** State and exceptions *)

(** A computation reads and writes the store and either returns or raises;
    the store it leaves is kept in both cases. *)
Definition M (A : Type) : Type := World → result A * World.

#[global] Instance M_ret : MRet M := λ A a w, (Ok a, w).

#[global] Instance M_bind : MBind M := λ A B f m w,
  match m w with
  | (Ok a, w') => f a w'
  | (Err e, w') => (Err e, w')
  end.

(** A pure, fallible step. *)
Definition lift {A} (r : result A) : M A := λ w, (r, w).

(** [platform.toolchain.<template>[i] += s] *)
Definition iadd_template (t : Template) (i : nat) (s : string) : M unit :=
  λ w,
    let l := get_template t (toolchain w) in
    match l !! i with
    | Some old =>
        (Ok (),
         {| toolchain := set_template t (<[i := old +:+ s]> l) (toolchain w);
            spawned := spawned w |})
    | None => (Err IndexError, w)
    end.

(** ** [BaseSoC.__init__] *)

Record BaseSoC := {
  crg_use_pll : bool;
  mem_regions : list MemoryRegionRegistry.MemoryRegion;
}.

Definition spram_size : N := 128 * 1024.

(** The constructor.  [register_mem(name, address, interface, size)] is
    [MemoryRegionRegistry.register] with the bus in the last place.
    [regions0] are the regions that [SoCCore.__init__] has
    registered when it returns and [spram_bus] identifies [self.spram.bus];
    the clock generator, the SPRAM, the USB pads and the debug bridge are
    built by their own libraries and leave the templates alone; what those
    calls raise, and what the clock generator does with [use_pll], is not
    part of this model.  The
    keyword defaults ([placer=None], [pnr_seed=0], [use_pll=True]) are
    supplied by the caller. *)
Definition BaseSoC_init (regions0 : list MemoryRegionRegistry.MemoryRegion)
    (spram_bus : nat) (placer : option PyVal) (pnr_seed : PyVal)
    (use_pll : bool) : M BaseSoC :=
  reg ← lift (MemoryRegionRegistry.register regions0 "sram" 0x10000000
                spram_size spram_bus);
  iadd_template YosysTemplate 2 " -relut -dffe_min_ce_use 4";;
  iadd_template BuildTemplate 1 (" --seed " +:+ str pnr_seed);;
  match placer with
  | Some p => iadd_template BuildTemplate 1 (" --placer " +:+ str p)
  | None => mret ()
  end;;
  mret {| crg_use_pll := use_pll; mem_regions := reg.2 |}.

(** ** The overrides, one by one *)

(** The two template entries that the constructor edits: the [synth_ice40]
    line of the yosys script and the [nextpnr-ice40] line of the build
    script. *)
Inductive Stage := synthesis | place_and_route.

Definition stage_template (s : Stage) : Template :=
  match s with synthesis => YosysTemplate | place_and_route => BuildTemplate end.

Definition stage_position (s : Stage) : nat :=
  match s with synthesis => 2 | place_and_route => 1 end.

(** The three edits of the constructor, by name. *)
Inductive Override :=
  | density_flags
  | seed (pnr_seed : PyVal)
  | placer (p : PyVal).

Definition override_stage (o : Override) : Stage :=
  match o with
  | density_flags => synthesis
  | seed _ | placer _ => place_and_route
  end.

Definition override_text (o : Override) : string :=
  match o with
  | density_flags => " -relut -dffe_min_ce_use 4"
  | seed pnr_seed => " --seed " +:+ str pnr_seed
  | placer p => " --placer " +:+ str p
  end.

Definition apply_override (o : Override) : M unit :=
  iadd_template (stage_template (override_stage o))
    (stage_position (override_stage o)) (override_text o).

Fixpoint apply_overrides (os : list Override) : M unit :=
  match os with
  | [] => mret ()
  | o :: os' => apply_override o;; apply_overrides os'
  end.

(** The overrides that one construction applies, in the order of the
    constructor's statements. *)
Definition init_overrides (p : option PyVal) (pnr_seed : PyVal)
    : list Override :=
  [density_flags; seed pnr_seed] ++ option_list (placer <$> p).

(** What the constructor's placer branch puts at the end of the
    place-and-route command. *)
Definition placer_text (p : option PyVal) : string :=
  match p with
  | Some v => override_text (placer v)
  | None => ""
  end.

(** The command of a stage as the template holds it, and its tokens: the
    blank-separated words of the command line. *)
Definition command (s : Stage) (tc : Toolchain) : option string :=
  get_template (stage_template s) tc !! stage_position s.

Definition render (s : Stage) (tc : Toolchain) : option (list string) :=
  String.words <$> command s tc.

(** ** The command line *)

(** An option of the command line as [argparse] has recognised it; how the
    argument strings are recognised is [recognise], further down. *)
Inductive CliArg :=
  | ArgSeed (v : string)
  | ArgPlacer (v : string)
  | ArgNoPll.

#[global] Instance CliArg_eq_dec : EqDecision CliArg.
Proof. solve_decision. Defined.

Record Namespace := {
  args_seed : PyVal;
  args_placer : option string;
  args_no_pll : bool;
}.

(** The declared defaults: [--seed] has [default=0], [--placer] has none,
    [--no-pll] is a [store_true] flag. *)
Definition defaults : Namespace :=
  {| args_seed := PyInt 0; args_placer := None; args_no_pll := false |}.

Definition placer_choices : list string := ["sa"; "heap"].

(** [parser.parse_args()]: options are stored from left to right, a later
    occurrence replacing an earlier one.  [--seed] declares no [type], so
    its argument is stored as the string it is; an argument of [--placer]
    outside [choices] is an error at the occurrence. *)
Fixpoint parse_args_from (ns : Namespace) (argv : list CliArg)
    : result Namespace :=
  match argv with
  | [] => Ok ns
  | ArgSeed v :: argv' =>
      parse_args_from
        {| args_seed := PyStr v; args_placer := args_placer ns;
           args_no_pll := args_no_pll ns |} argv'
  | ArgPlacer v :: argv' =>
      if decide (v ∈ placer_choices) then
        parse_args_from
          {| args_seed := args_seed ns; args_placer := Some v;
             args_no_pll := args_no_pll ns |} argv'
      else Err InvalidConfiguration
  | ArgNoPll :: argv' =>
      parse_args_from
        {| args_seed := args_seed ns; args_placer := args_placer ns;
           args_no_pll := true |} argv'
  end.

Definition parse_args : list CliArg → result Namespace :=
  parse_args_from defaults.

(** Modelled from the spec: [Builder.build], the build library's driver of
    the external tools.  Of its effects the model keeps the launch of the
    build script's commands, as the templates hold them at that moment; a
    tool that fails is not part of this model. *)
Definition Builder_build : M unit :=
  λ w,
    (Ok (),
     {| toolchain := toolchain w;
        spawned := spawned w ++ nextpnr_build_template (toolchain w) |}).

(** [main()].  [Platform()] is the platform whose toolchain the store holds
    on entry. *)
Definition main (regions0 : list MemoryRegionRegistry.MemoryRegion)
    (spram_bus : nat) (argv : list CliArg) : M unit :=
  args ← lift (parse_args argv);
  BaseSoC_init regions0 spram_bus (PyStr <$> args_placer args)
    (args_seed args) (negb (args_no_pll args));;
  Builder_build.

(** The seed and the placer that a command line selects: the argument of the
    last occurrence of the option, if there is one. *)
Definition seed_of_arg (a : CliArg) : option string :=
  match a with ArgSeed v => Some v | _ => None end.

Definition placer_of_arg (a : CliArg) : option string :=
  match a with ArgPlacer v => Some v | _ => None end.

Definition last_seed (argv : list CliArg) : option string :=
  last (omap seed_of_arg argv).

Definition last_placer (argv : list CliArg) : option string :=
  last (omap placer_of_arg argv).

(** An option that [parse_args] takes: any [--seed], [--no-pll], and a
    [--placer] with one of the declared choices. *)
Definition valid_arg (a : CliArg) : Prop :=
  match a with
  | ArgPlacer v => v ∈ placer_choices
  | ArgSeed _ | ArgNoPll => True
  end.

(** ** The command line as the shell hands it over *)

(** The part of [argparse] (CPython 3.11) that comes before an option is
    stored: which argument strings it takes for options and which for
    arguments, and where it stops.  The argument strings are strings of ASCII
    characters. *)

Inductive Action := ActHelp | ActSeed | ActPlacer | ActNoPll.

(** The option strings of the parser: [-h] and [--help], which
    [ArgumentParser] adds by itself, and the three that [main] declares. *)
Definition option_strings : list (string * Action) :=
  [ ("-h", ActHelp); ("--help", ActHelp); ("--seed", ActSeed);
    ("--placer", ActPlacer); ("--no-pll", ActNoPll) ].

Definition find_option (s : string) : option Action :=
  snd <$> List.find (λ o, bool_decide (o.1 = s)) option_strings.

(** [s.split('=', 1)] when there is a ['='] in [s]. *)
Fixpoint split_eq (s : string) : option (string * string) :=
  match s with
  | "" => None
  | String c s' =>
      if Ascii.eqb c "=" then Some ("", s')
      else prod_map (String c) id <$> split_eq s'
  end.

(** [' ' in s] *)
Fixpoint has_space (s : string) : bool :=
  match s with
  | "" => false
  | String c s' => Ascii.eqb c " " || has_space s'
  end.

Definition is_digit (c : ascii) : bool :=
  match Ascii.is_nat c with Some _ => true | None => false end.

Fixpoint all_digits (s : string) : bool :=
  match s with
  | "" => true
  | String c s' => is_digit c && all_digits s'
  end.

(** [\d+] on the whole of [s] *)
Definition digits1 (s : string) : bool :=
  match s with
  | "" => false
  | _ => all_digits s
  end.

Fixpoint drop_digits (s : string) : string :=
  match s with
  | "" => ""
  | String c s' => if is_digit c then drop_digits s' else s
  end.

(** One newline at the very end, which [$] lets pass, taken off. *)
Fixpoint chomp (s : string) : string :=
  match s with
  | "" => ""
  | String c s' =>
      match s' with
      | "" => if Ascii.eqb c "010" then "" else s
      | _ => String c (chomp s')
      end
  end.

(** The parser's [_negative_number_matcher], ['^-\d+$|^-\d*\.\d+$']. *)
Definition negative_number (s : string) : bool :=
  match s with
  | String "-" body =>
      let b := chomp body in
      digits1 b ||
      match drop_digits b with
      | String "." fraction => digits1 fraction
      | _ => false
      end
  | _ => false
  end.

(** Whether an option string starts with two dashes ([option_string[1] in
    chars]). *)
Definition is_long (o : string) : bool := String.prefix "--" o.

(** [_get_option_tuples]: the options that [s] can stand for.  With two
    dashes, those whose string begins with [s] up to its ['=']; with one
    dash, a one-letter option with the rest of [s] as its argument, or an
    option whose string begins with [s]. *)
Definition option_tuples (s : string)
    : list (string * Action * option string) :=
  if String.prefix "--" s then
    let '(p, e) :=
      match split_eq s with
      | Some (p, e) => (p, Some e)
      | None => (s, None)
      end in
    (λ o, (o.1, o.2, e))
      <$> List.filter (λ o, String.prefix p o.1) option_strings
  else
    omap (λ o : string * Action,
            if bool_decide (o.1 = String.substring 0 2 s)
            then Some (o.1, o.2,
                       Some (String.substring 2 (String.length s - 2) s))
            else if String.prefix s o.1 then Some (o.1, o.2, None)
            else None)
         option_strings.

(** What [_parse_optional] makes of one argument string: an argument, an
    option (with the argument that is glued to it, if any), a string that
    looks like an option but is none of the parser's, or an abbreviation
    that fits several options. *)
Inductive Kind :=
  | KArg
  | KOpt (a : Action) (long : bool) (explicit : option string)
  | KUnknown
  | KAmbiguous.

Definition classify (s : string) : Kind :=
  match s with
  | "" => KArg
  | String c _ =>
      if negb (Ascii.eqb c "-") then KArg
      else
        match find_option s with
        | Some a => KOpt a (is_long s) None
        | None =>
            if bool_decide (s = "-") then KArg
            else
              match split_eq s ≫= λ pe,
                    (λ a, KOpt a (is_long pe.1) (Some pe.2))
                      <$> find_option pe.1 with
              | Some k => k
              | None =>
                  match option_tuples s with
                  | [] =>
                      if negative_number s then KArg
                      else if has_space s then KArg
                      else KUnknown
                  | [(o, a, e)] => KOpt a (is_long o) e
                  | _ => KAmbiguous
                  end
              end
        end
  end.

(** An argument string that an option can take as its argument: one that is
    classified as an argument and is not the separator [--]. *)
Definition is_argument (v : string) : bool :=
  negb (bool_decide (v = "--")) &&
  match classify v with KArg => true | _ => false end.

(** The first pass stops at the first abbreviation that fits several
    options; what follows [--] is not looked at. *)
Fixpoint ambiguous (argv : list string) : bool :=
  match argv with
  | [] => false
  | s :: rest =>
      if bool_decide (s = "--") then false
      else match classify s with
           | KAmbiguous => true
           | _ => ambiguous rest
           end
  end.

(** [-hh...h]: one-letter options without arguments can be run together. *)
Fixpoint only_h (e : string) : bool :=
  match e with
  | "" => false
  | String c e' =>
      Ascii.eqb c "h" && match e' with "" => true | _ => only_h e' end
  end.

(** Where the second pass ends: at the end of the command line, at a help
    option, at an error, or at an option whose glued argument is [--], which
    [argparse] stores as an empty list. *)
Inductive Stop := AtEnd | AtHelp | AtUsage | AtEmptyList.

Definition store (a : Action) (v : string) : CliArg :=
  match a with
  | ActPlacer => ArgPlacer v
  | _ => ArgSeed v
  end.

Definition push (a : CliArg) (r : list CliArg * bool * Stop)
    : list CliArg * bool * Stop :=
  (a :: r.1.1, r.1.2, r.2).

Definition mark_extra (r : list CliArg * bool * Stop)
    : list CliArg * bool * Stop :=
  (r.1.1, true, r.2).

(** The second pass, from left to right: the options met before it stops,
    whether a string was left over (an argument that no option takes, an
    unknown option, or [--] and what follows it), and where it stopped.  An
    option without a glued argument takes the next string if that is an
    argument. *)
Fixpoint scan (argv : list string) : list CliArg * bool * Stop :=
  match argv with
  | [] => ([], false, AtEnd)
  | s :: rest =>
      if bool_decide (s = "--") then ([], true, AtEnd)
      else
        match classify s with
        | KArg | KUnknown => mark_extra (scan rest)
        | KAmbiguous => ([], false, AtUsage)
        | KOpt ActHelp _ None => ([], false, AtHelp)
        | KOpt ActHelp long (Some e) =>
            ([], false, if negb long && only_h e then AtHelp else AtUsage)
        | KOpt ActNoPll _ None => push ArgNoPll (scan rest)
        | KOpt ActNoPll _ (Some _) => ([], false, AtUsage)
        | KOpt a _ (Some e) =>
            if bool_decide (e = "--") then ([], false, AtEmptyList)
            else push (store a e) (scan rest)
        | KOpt a _ None =>
            match rest with
            | v :: rest' =>
                if is_argument v then push (store a v) (scan rest')
                else ([], false, AtUsage)
            | [] => ([], false, AtUsage)
            end
        end
  end.

(** What becomes of a command line before anything is built: its options,
    recognised and with valid choices; a usage error (exit status 2); the
    help text (exit status 0); or an empty list stored for an option, which
    is not followed further.  Leftover strings are an error only at the end,
    after a help option had its chance. *)
Inductive Recognition :=
  | Recognised (args : list CliArg)
  | Usage
  | Help
  | EmptyList.

Definition recognise (argv : list string) : Recognition :=
  if ambiguous argv then Usage
  else
    let '(args, extras, stop) := scan argv in
    if is_Ok (parse_args args) then
      match stop with
      | AtEnd => if extras then Usage else Recognised args
      | AtHelp => Help
      | AtUsage => Usage
      | AtEmptyList => EmptyList
      end
    else Usage.

(** How the program ends. *)
Inductive Exit :=
  | Finished (r : result unit)
  | HelpShown
  | NotFollowed.

(** [main()] on the argument strings of the command line. *)
Definition main_argv (regions0 : list MemoryRegionRegistry.MemoryRegion)
    (spram_bus : nat) (argv : list string) (w : World) : Exit * World :=
  match recognise argv with
  | Recognised args =>
      let '(r, w') := main regions0 spram_bus args w in (Finished r, w')
  | Usage => (Finished (Err InvalidConfiguration), w)
  | Help => (HelpShown, w)
  | EmptyList => (NotFollowed, w)
  end.

(** ** A platform to run on *)

(** Templates in the shape of the IceStorm toolchain's (a yosys script and a
    build script of three lines each), to run the model on. *)
Definition icestorm_toolchain : Toolchain :=
  {| nextpnr_yosys_template :=
       [ "{read_files}";
         "attrmap -tocase keep -imap keep=true keep=1 -remove keep=0";
         "synth_ice40 -json {build_name}.json -top {build_name}" ];
     nextpnr_build_template :=
       [ "yosys -q -l {build_name}.rpt {build_name}.ys";
         "nextpnr-ice40 --json {build_name}.json --pcf {build_name}.pcf";
         "icepack {build_name}.txt {build_name}.bin" ] |}.

Definition fresh_world : World :=
  {| toolchain := icestorm_toolchain; spawned := [] |}.

(** ** Several constructions on one platform *)



(** The two stores agree on what was launched, on the length of each
    template and on every template entry outside [entries]. *)
Definition same_but (entries : list (Template * nat)) (w w' : World) : Prop :=
  spawned w' = spawned w ∧
  (∀ t, length (get_template t (toolchain w'))
        = length (get_template t (toolchain w))) ∧
  (∀ t i, (t, i) ∉ entries →
          get_template t (toolchain w') !! i
          = get_template t (toolchain w) !! i).

(** The tokens that the placer branch adds. *)
Definition placer_tokens (p : option string) : list string :=
  match p with
  | Some v => ["--placer"; v]
  | None => []
  end.

(** * Properties *)

(** ** Dictionaries and lists *)

Lemma dict_of_items_snoc {V} (items : list (string * V)) k v :
  dict_of_items (items ++ [(k, v)]) = <[k := v]> (dict_of_items items).
Proof. unfold dict_of_items. by rewrite foldl_snoc. Qed.

(** What a dict holds under a key is one of the items it was built from. *)
Lemma dict_of_items_lookup_Some {V} (items : list (string * V)) k v :
  dict_of_items items !! k = Some v → (k, v) ∈ items.
Proof.
  induction items as [|[k' v'] items IH] using rev_ind; [done|].
  rewrite dict_of_items_snoc, lookup_insert, elem_of_app, list_elem_of_singleton.
  case_decide; naive_solver.
Qed.

(** In a list of pairs whose second components are all different, the second
    component determines the pair. *)
Lemma NoDup_snd_inj {A B} (l : list (A * B)) a1 a2 b :
  NoDup (l.*2) → (a1, b) ∈ l → (a2, b) ∈ l → a1 = a2.
Proof.
  intros Hnd [j1 H1]%list_elem_of_lookup [j2 H2]%list_elem_of_lookup.
  assert (j1 = j2) as ->.
  { apply (NoDup_lookup (l.*2) j1 j2 b); [done| |];
      rewrite list_lookup_fmap; [by rewrite H1|by rewrite H2]. }
  congruence.
Qed.

Lemma csr_map_items_NoDup_indices : NoDup (csr_map_items.*2).
Proof. apply (bool_decide_unpack _). by vm_compute. Qed.

(** ** The CSR allocator *)

Module AllocatorFacts.
Import AddressSpaceAllocator.

Lemma lowest_unused_from_spec used fuel i :
  let r := lowest_unused_from used fuel i in
  i ≤ r ≤ i + fuel ∧ (∀ j, i ≤ j < r → j ∈ used) ∧ (r < i + fuel → r ∉ used).
Proof.
  revert i. induction fuel as [|fuel IH]; intros i; simpl.
  - split; [lia|]. split; intros; lia.
  - case_decide as Hi.
    + destruct (IH (S i)) as (Hr & Hbelow & Hfree).
      split; [lia|]. split.
      * intros j Hj. destruct (decide (j = i)) as [->|]; [done|].
        apply Hbelow. lia.
      * intros Hlt. apply Hfree. lia.
    + split; [lia|]. split; [intros; lia|done].
Qed.

(** A list of [n] numbers cannot hold all of [0 .. n]. *)
Lemma pigeonhole (used : list nat) :
  (∀ j, j < length used → j ∈ used) → length used ∉ used.
Proof.
  intros Hall Hin.
  assert (seq 0 (S (length used)) ⊆+ used) as Hsub.
  { apply NoDup_submseteq; [apply NoDup_seq|].
    intros j [_ Hj]%elem_of_seq.
    destruct (decide (j = length used)) as [->|]; [done|].
    apply Hall. lia. }
  apply submseteq_length in Hsub. rewrite length_seq in Hsub. lia.
Qed.

(** [lowest_unused] is the least natural number that is not in the list. *)
Lemma lowest_unused_spec used :
  (lowest_unused used ∉ used) ∧ (∀ j, j < lowest_unused used → j ∈ used).
Proof.
  unfold lowest_unused.
  destruct (lowest_unused_from_spec used (length used) 0)
    as (Hr & Hbelow & Hfree).
  split; [|intros j Hj; apply Hbelow; lia].
  destruct (decide (lowest_unused_from used (length used) 0 < length used))
    as [Hlt|Hge]; [by apply Hfree|].
  replace (lowest_unused_from used (length used) 0) with (length used)
    in * by lia.
  apply pigeonhole. intros j Hj. apply Hbelow. lia.
Qed.

Lemma indices_snoc slots s : indices (slots ++ [s]) = indices slots ++ [index s].
Proof. unfold indices. by rewrite fmap_app. Qed.

Lemma NoDup_snoc_fresh (l : list nat) i : NoDup l → i ∉ l → NoDup (l ++ [i]).
Proof.
  intros Hnd Hi. apply NoDup_app. split; [done|].
  split; [|apply NoDup_singleton].
  intros j Hj ->%list_elem_of_singleton. done.
Qed.

(** One registration keeps the indices apart, with an index given or not;
    a collision is [DuplicateIndex]. *)
Lemma register_NoDup slots n req s slots' :
  NoDup (indices slots) →
  register slots n req = Ok (s, slots') →
  NoDup (indices slots') ∧ slots' = slots ++ [s].
Proof.
  intros Hnd. unfold register. destruct req as [i|].
  - case_decide as Hi; [done|]. intros [= <- <-].
    split; [|done]. rewrite indices_snoc. by apply NoDup_snoc_fresh.
  - intros [= <- <-]. split; [|done]. rewrite indices_snoc.
    apply NoDup_snoc_fresh; [done|]. apply lowest_unused_spec.
Qed.

Lemma register_taken slots n i :
  i ∈ indices slots → register slots n (Some i) = Err DuplicateIndex.
Proof. intros Hi. unfold register. by rewrite decide_True. Qed.

Lemma register_all_NoDup reqs slots :
  NoDup (indices slots) → NoDup (indices (register_all slots reqs)).
Proof.
  revert slots. induction reqs as [|[n req] reqs IH]; intros slots Hnd; [done|].
  simpl. destruct (register slots n req) as [[s slots']|e] eqn:Hreg.
  - apply IH. by eapply register_NoDup.
  - by apply IH.
Qed.

End AllocatorFacts.

(** ** The memory-region registry *)

Module RegistryFacts.
Import MemoryRegionRegistry.

(** The test on the bounds is the test on the addresses. *)
Lemma intersects_spec r1 r2 :
  intersects r1 r2 = true ↔
  bus_id r1 = bus_id r2 ∧ ∃ a, contains r1 a ∧ contains r2 a.
Proof.
  unfold intersects, contains.
  rewrite andb_true_iff, bool_decide_eq_true, N.ltb_lt. split.
  - intros [Hbus Hlt]. split; [done|].
    exists (N.max (base_address r1) (base_address r2)). lia.
  - intros [Hbus (a & H1 & H2)]. split; [done|]. lia.
Qed.

Lemma register_Ok_inv regions n base sz bus r regions' :
  register regions n base sz bus = Ok (r, regions') →
  sz ≠ 0%N ∧
  r = {| name := n; base_address := base; size := sz; bus_id := bus |} ∧
  regions' = regions ++ [r] ∧
  ∀ r', r' ∈ regions → intersects r r' = false.
Proof.
  unfold register. destruct (N.eqb_spec sz 0) as [|Hsz]; [done|].
  destruct (existsb _ regions) eqn:Hex; [done|]. intros [= <- <-].
  repeat split; [done|]. intros r' Hr'.
  apply not_true_is_false. intros Hint.
  assert (existsb
    (intersects
       {| name := n; base_address := base; size := sz; bus_id := bus |})
    regions = true) as Hex'; [|congruence].
  apply existsb_exists. exists r'. split; [by apply list_elem_of_In|done].
Qed.

Lemma lookup_snoc_inv {A} (l : list A) x i y :
  (l ++ [x]) !! i = Some y → l !! i = Some y ∨ (i = length l ∧ y = x).
Proof.
  intros H. destruct (decide (i < length l)) as [Hlt|Hge].
  - left. by rewrite lookup_app_l in H.
  - right. rewrite lookup_app_r in H by lia.
    destruct (i - length l) as [|k] eqn:Hk; simpl in H; [|done].
    split; [lia|congruence].
Qed.

(** One accepted registration keeps the regions of every bus apart. *)
Lemma register_disjoint regions n base sz bus r regions' :
  pairwise_disjoint regions →
  register regions n base sz bus = Ok (r, regions') →
  pairwise_disjoint regions'.
Proof.
  intros Hinv (Hsz & Hr & -> & Hfree)%register_Ok_inv.
  assert (∀ r', r' ∈ regions → bus_id r = bus_id r' →
            ∀ a, ¬ (contains r a ∧ contains r' a)) as Hnew.
  { intros r' Hr' Hbus a Ha.
    assert (intersects r r' = true) as Hint; [apply intersects_spec; eauto|].
    rewrite Hfree in Hint; done. }
  intros i j r1 r2 Hij H1 H2 Hbus a [Ha1 Ha2].
  apply lookup_snoc_inv in H1 as [H1|[-> ->]];
    apply lookup_snoc_inv in H2 as [H2|[-> ->]].
  - by apply (Hinv i j r1 r2 Hij H1 H2 Hbus a).
  - apply (Hnew r1 (list_elem_of_lookup_2 _ _ _ H1) (eq_sym Hbus) a). done.
  - apply (Hnew r2 (list_elem_of_lookup_2 _ _ _ H2) Hbus a). done.
  - done.
Qed.

Lemma pairwise_disjoint_nil : pairwise_disjoint [].
Proof. intros i j r1 r2 _ H. done. Qed.

Lemma register_all_disjoint reqs regions :
  pairwise_disjoint regions → pairwise_disjoint (register_all regions reqs).
Proof.
  revert regions.
  induction reqs as [|[[[n base] sz] bus] reqs IH]; intros regions Hinv;
    [done|].
  simpl. destruct (register regions n base sz bus) as [[r regions']|e] eqn:Hreg.
  - apply IH. by eapply register_disjoint.
  - by apply IH.
Qed.

(** A new region that has an address in common with a registered region of
    its bus is turned down with [Overlap]. *)
Lemma register_overlap regions n base sz bus r a :
  r ∈ regions → bus_id r = bus →
  contains r a → (base ≤ a < base + sz)%N →
  register regions n base sz bus = Err Overlap.
Proof.
  intros Hr Hbus Ha Hnew. unfold register.
  destruct (N.eqb_spec sz 0) as [->|Hsz]; [lia|].
  assert (existsb
    (intersects
       {| name := n; base_address := base; size := sz; bus_id := bus |})
    regions = true) as ->; [|done].
  apply existsb_exists. exists r. split; [by apply list_elem_of_In|].
  apply intersects_spec. split; [done|]. exists a. by split.
Qed.

End RegistryFacts.

(** ** Strings and tokens *)

Lemma string_app_cons c (s t : string) : String c s +:+ t = String c (s +:+ t).
Proof. reflexivity. Qed.

Lemma string_app_assoc (s1 s2 s3 : string) :
  (s1 +:+ s2) +:+ s3 = s1 +:+ s2 +:+ s3.
Proof.
  induction s1 as [|c s1 IH]; [done|].
  by rewrite !string_app_cons, IH.
Qed.

Lemma string_app_nil_r (s : string) : s +:+ "" = s.
Proof.
  induction s as [|c s IH]; [done|].
  by rewrite string_app_cons, IH.
Qed.

(** A blank closes the word that is being read: the words before it are
    those of the text before it. *)
Lemma words_go_app_space cur s c t :
  Ascii.is_space c = true →
  String.words_go cur (s +:+ String c t)
  = String.words_go cur s ++ String.words_go None t.
Proof.
  intros Hc. revert cur. induction s as [|a s IH]; intros cur.
  - change ("" +:+ String c t) with (String c t). simpl. by rewrite Hc.
  - rewrite string_app_cons. simpl. destruct (Ascii.is_space a).
    + rewrite IH. apply app_assoc.
    + apply IH.
Qed.

Lemma words_app_space s c t :
  Ascii.is_space c = true →
  String.words (s +:+ String c t) = String.words s ++ String.words t.
Proof. apply words_go_app_space. Qed.

(** Every override starts with a blank. *)
Lemma override_text_blank o :
  ∃ c t, override_text o = String c t ∧ Ascii.is_space c = true.
Proof. destruct o; do 2 eexists; split; reflexivity. Qed.

Lemma words_override old o :
  String.words (old +:+ override_text o)
  = String.words old ++ String.words (override_text o).
Proof.
  destruct (override_text_blank o) as (c & t & Ht & Hc).
  rewrite Ht, words_app_space by done. f_equal.
  change (String.words (String c t))
    with (if Ascii.is_space c then [] ++ String.words t
          else String.words_go (Some (String c "")) t).
  by rewrite Hc.
Qed.

(** ** Editing a template in place *)

Lemma get_set_template t l tc : get_template t (set_template t l tc) = l.
Proof. by destruct t. Qed.

Lemma get_set_template_ne t t' l tc :
  t ≠ t' → get_template t' (set_template t l tc) = get_template t' tc.
Proof. by destruct t, t'. Qed.

(** [l[i] += s] on an entry that exists: the entry gets [s] at its end, all
    other entries of both templates stay, nothing is launched. *)
Lemma iadd_template_Ok t i s w old :
  get_template t (toolchain w) !! i = Some old →
  iadd_template t i s w
  = (Ok (),
     {| toolchain :=
          set_template t (<[i := old +:+ s]> (get_template t (toolchain w)))
            (toolchain w);
        spawned := spawned w |}).
Proof. intros H. unfold iadd_template. by rewrite H. Qed.

(** On a position past the end of the list: [IndexError], nothing written. *)
Lemma iadd_template_Err t i s w :
  get_template t (toolchain w) !! i = None →
  iadd_template t i s w = (Err IndexError, w).
Proof. intros H. unfold iadd_template. by rewrite H. Qed.

Lemma iadd_template_inv t i s w r w' :
  iadd_template t i s w = (r, w') →
  (∃ old, get_template t (toolchain w) !! i = Some old ∧ r = Ok () ∧
     w' = {| toolchain :=
               set_template t
                 (<[i := old +:+ s]> (get_template t (toolchain w)))
                 (toolchain w);
             spawned := spawned w |})
  ∨ (get_template t (toolchain w) !! i = None ∧ r = Err IndexError ∧ w' = w).
Proof.
  unfold iadd_template.
  destruct (get_template t (toolchain w) !! i) as [old|] eqn:H;
    intros [= <- <-]; [left|right]; eauto.
Qed.

(** The edit looks at the templates only, not at what was launched. *)
Lemma iadd_template_frame t i s w sp :
  iadd_template t i s {| toolchain := toolchain w; spawned := sp |}
  = ((iadd_template t i s w).1,
     {| toolchain := toolchain (iadd_template t i s w).2; spawned := sp |}).
Proof.
  unfold iadd_template. simpl.
  by destruct (get_template t (toolchain w) !! i).
Qed.

Lemma apply_overrides_frame os w sp :
  apply_overrides os {| toolchain := toolchain w; spawned := sp |}
  = ((apply_overrides os w).1,
     {| toolchain := toolchain (apply_overrides os w).2; spawned := sp |}).
Proof.
  revert w. induction os as [|o os IH]; intros w; [done|].
  simpl. unfold mbind, M_bind, apply_override.
  rewrite iadd_template_frame.
  destruct (iadd_template _ _ _ w) as [[[]|e] w1]; simpl; [|done].
  apply IH.
Qed.

(** ** The constructor *)

Section constructor.
Import MemoryRegionRegistry.
Context (regions0 : list MemoryRegion) (spram_bus : nat).
Context (p : option PyVal) (pnr_seed : PyVal) (use_pll : bool).

Let sram := register regions0 "sram" 0x10000000 spram_size spram_bus.

(** The constructor is the registration of the SPRAM followed by its
    overrides, in the order of [init_overrides]. *)
Lemma BaseSoC_init_overrides w :
  BaseSoC_init regions0 spram_bus p pnr_seed use_pll w
  = (reg ← lift sram;
     apply_overrides (init_overrides p pnr_seed);;
     mret {| crg_use_pll := use_pll; mem_regions := reg.2 |}) w.
Proof.
  unfold BaseSoC_init, init_overrides, mbind, M_bind, lift. fold sram.
  destruct sram as [reg|e]; [|done].
  simpl. unfold mbind, M_bind, apply_override. simpl.
  destruct (iadd_template YosysTemplate 2 _ w) as [[[]|e] w1]; [|done].
  destruct (iadd_template BuildTemplate 1 _ w1) as [[[]|e] w2]; [|done].
  destruct p as [v|]; simpl; unfold mbind, M_bind; simpl; [|done].
  unfold apply_override. simpl.
  by destruct (iadd_template BuildTemplate 1 _ w2) as [[[]|e] w3].
Qed.

(** When the SPRAM region is accepted and both edited entries exist, the
    constructor returns, and the store it leaves is the one it found with
    the two entries extended. *)
Lemma BaseSoC_init_Ok w r regions' y b :
  sram = Ok (r, regions') →
  nextpnr_yosys_template (toolchain w) !! 2 = Some y →
  nextpnr_build_template (toolchain w) !! 1 = Some b →
  BaseSoC_init regions0 spram_bus p pnr_seed use_pll w
  = (Ok {| crg_use_pll := use_pll; mem_regions := regions' |},
     {| toolchain :=
          {| nextpnr_yosys_template :=
               <[2 := y +:+ " -relut -dffe_min_ce_use 4"]>
                 (nextpnr_yosys_template (toolchain w));
             nextpnr_build_template :=
               <[1 := b +:+ " --seed " +:+ str pnr_seed +:+ placer_text p]>
                 (nextpnr_build_template (toolchain w)) |};
        spawned := spawned w |}).
Proof.
  intros Hreg Hy Hb. unfold BaseSoC_init, mbind, M_bind, lift. fold sram.
  rewrite Hreg.
  rewrite (iadd_template_Ok YosysTemplate 2 _ w y) by done. simpl.
  erewrite (iadd_template_Ok BuildTemplate 1) by done. simpl.
  destruct p as [v|]; simpl.
  - erewrite (iadd_template_Ok BuildTemplate 1); simpl;
      [|apply list_lookup_insert_eq; by eapply lookup_lt_Some].
    unfold mret, M_ret. simpl.
    by rewrite list_insert_insert_eq, string_app_assoc.
  - unfold mbind, M_bind, mret, M_ret. simpl.
    by rewrite string_app_nil_r.
Qed.

(** Conversely, a construction that returns has found the SPRAM region
    free and both entries present. *)
Lemma BaseSoC_init_Ok_inv w soc w' :
  BaseSoC_init regions0 spram_bus p pnr_seed use_pll w = (Ok soc, w') →
  ∃ r y b,
    sram = Ok (r, mem_regions soc) ∧
    nextpnr_yosys_template (toolchain w) !! 2 = Some y ∧
    nextpnr_build_template (toolchain w) !! 1 = Some b.
Proof.
  unfold BaseSoC_init, mbind, M_bind, lift. fold sram.
  destruct sram as [[r regions']|e]; [|done].
  destruct (iadd_template YosysTemplate 2 _ w) as [[[]|e] w1] eqn:H1; [|done].
  apply iadd_template_inv in H1 as [(y & Hy & _ & ->)|(_ & ? & _)]; [|done].
  destruct (iadd_template BuildTemplate 1 _ _) as [[[]|e] w2] eqn:H2; [|done].
  apply iadd_template_inv in H2 as [(b & Hb & _ & ->)|(_ & ? & _)]; [|done].
  intros Hrest. exists r, y, b. split; [|done].
  destruct p as [v|]; simpl in Hrest.
  - destruct (iadd_template BuildTemplate 1 _ _) as [[[]|e] w3]; [|done].
    by injection Hrest as <- _.
  - by injection Hrest as <- _.
Qed.

End constructor.

(** ** The command line *)

Lemma parse_args_from_app ns pre post :
  parse_args_from ns (pre ++ post)
  = match parse_args_from ns pre with
    | Ok ns' => parse_args_from ns' post
    | Err e => Err e
    end.
Proof.
  revert ns. induction pre as [|a pre IH]; intros ns; [done|].
  destruct a as [v|v|]; simpl; [apply IH| |apply IH].
  case_decide; [apply IH|done].
Qed.


(** A command line is taken exactly when each [--placer] on it names one of
    the choices; the argument of [--seed] is not looked at. *)
Lemma parse_args_from_is_Ok ns argv :
  is_Ok (parse_args_from ns argv) = true ↔ Forall valid_arg argv.
Proof.
  revert ns. induction argv as [|a argv IH]; intros ns; simpl.
  - split; [constructor|done].
  - rewrite Forall_cons. destruct a as [v|v|]; simpl.
    + rewrite IH. tauto.
    + case_decide; [rewrite IH; tauto|]. split; [done|tauto].
    + rewrite IH. tauto.
Qed.

Lemma last_omap_cons {A B} (f : A → option B) a l :
  last (omap f (a :: l))
  = match last (omap f l) with Some y => Some y | None => f a end.
Proof.
  change (omap f (a :: l))
    with (match f a with Some y => y :: omap f l | None => omap f l end).
  destruct (f a) as [y|]; [apply last_cons|].
  by destruct (last (omap f l)).
Qed.

(** What ends up in the namespace: for each option the argument of its last
    occurrence, else what was there before. *)
Lemma parse_args_from_Ok ns argv ns' :
  parse_args_from ns argv = Ok ns' →
  args_seed ns' = from_option PyStr (args_seed ns) (last_seed argv) ∧
  args_placer ns' = from_option Some (args_placer ns) (last_placer argv).
Proof.
  revert ns. induction argv as [|a argv IH]; intros ns.
  - by intros [= <-].
  - unfold last_seed, last_placer in *. rewrite !last_omap_cons.
    destruct a as [v|v|]; simpl; [|case_decide; [|done]|];
      intros [-> ->]%IH; simpl;
      split; by repeat destruct (last _).
Qed.

Lemma parse_args_Ok argv ns :
  parse_args argv = Ok ns →
  args_seed ns = from_option PyStr (PyInt 0) (last_seed argv) ∧
  args_placer ns = last_placer argv.
Proof.
  intros [Hs Hp]%parse_args_from_Ok. split; [done|].
  rewrite Hp. by destruct (last_placer argv).
Qed.


(** [main] that returns has parsed its command line, built the SoC and
    launched the build with the templates the constructor left. *)
Lemma main_Ok_inv regions0 spram_bus argv w w' :
  main regions0 spram_bus argv w = (Ok (), w') →
  ∃ ns soc w1,
    parse_args argv = Ok ns ∧
    BaseSoC_init regions0 spram_bus (PyStr <$> args_placer ns) (args_seed ns)
      (negb (args_no_pll ns)) w = (Ok soc, w1) ∧
    w' = {| toolchain := toolchain w1;
            spawned := spawned w1 ++ nextpnr_build_template (toolchain w1) |}.
Proof.
  unfold main, mbind, M_bind, lift.
  destruct (parse_args argv) as [ns|e]; [|done].
  destruct (BaseSoC_init _ _ _ _ _ w) as [[soc|e] w1] eqn:Hinit; [|done].
  unfold Builder_build. intros [= <-]. by exists ns, soc, w1.
Qed.

(** * Specification properties *)

(** ** CSR indices *)

(** The slots of the configured table, registered one after the other with
    their explicit indices, are all accepted, and the finished allocator is
    the configured table. *)
Lemma csr_map_registered :
  let slots :=
    AddressSpaceAllocator.register_all []
      ((λ kv, (kv.1, Some kv.2)) <$> csr_map_items) in
  length slots = length csr_map_items ∧
  AddressSpaceAllocator.finalize slots = csr_map.
Proof. split; [done|]. by vm_compute. Qed.

(** C1: for every sequence of CSR registrations with explicit indices, two
    different accepted slots never have the same index; and in the configured
    table [csr_map] two different names never map to the same index. *)
Theorem csr_indices_unique :
  (∀ (reqs : list (string * nat)) i j s1 s2,
     let slots :=
       AddressSpaceAllocator.register_all [] ((λ r, (r.1, Some r.2)) <$> reqs) in
     i ≠ j → slots !! i = Some s1 → slots !! j = Some s2 →
     AddressSpaceAllocator.index s1 ≠ AddressSpaceAllocator.index s2) ∧
  (∀ n1 n2 i1 i2,
     n1 ≠ n2 → csr_map !! n1 = Some i1 → csr_map !! n2 = Some i2 → i1 ≠ i2).
Proof.
  split.
  - intros reqs i j s1 s2 slots Hij H1 H2 Heq. apply Hij.
    assert (NoDup (AddressSpaceAllocator.indices slots)) as Hnd.
    { apply AllocatorFacts.register_all_NoDup. constructor. }
    apply (NoDup_lookup _ i j (AddressSpaceAllocator.index s1) Hnd);
      unfold AddressSpaceAllocator.indices; rewrite list_lookup_fmap.
    + by rewrite H1.
    + by rewrite H2, Heq.
  - intros n1 n2 i1 i2 Hn H1%dict_of_items_lookup_Some
      H2%dict_of_items_lookup_Some ->.
    apply Hn.
    exact (NoDup_snd_inj _ _ _ _ csr_map_items_NoDup_indices H1 H2).
Qed.

Lemma csr_indices_unique_witness :
  (let slots :=
     AddressSpaceAllocator.register_all []
       [("ctrl", Some 0); ("usb", Some 9); ("twin", Some 9); ("touch", Some 11)] in
   ∀ s1 s2, slots !! 1 = Some s1 → slots !! 2 = Some s2 →
            AddressSpaceAllocator.index s1 ≠ AddressSpaceAllocator.index s2) ∧
  (csr_map !! "usb" = Some 9 ∧ csr_map !! "touch" = Some 11 ∧ 9 ≠ 11).
Proof.
  destruct csr_indices_unique as [Hslots Htable]. split.
  - intros slots s1 s2 H1 H2.
    apply (Hslots [("ctrl", 0); ("usb", 9); ("twin", 9); ("touch", 11)]
             1 2 s1 s2); [lia|exact H1|exact H2].
  - assert (csr_map !! "usb" = Some 9) as Husb by reflexivity.
    assert (csr_map !! "touch" = Some 11) as Htouch by reflexivity.
    split; [exact Husb|]. split; [exact Htouch|].
    apply (Htable "usb" "touch" 9 11); [discriminate|exact Husb|exact Htouch].
Defined.

(** C3: with "ctrl", "usb" and "touch" registered at 0, 9 and 11, a request
    for "uart" that names no index is given index 1; and in general a request
    that names no index is given the lowest index that no registered slot
    has. *)
Theorem uart_gets_lowest_unused :
  (let slots :=
     AddressSpaceAllocator.register_all []
       [("ctrl", Some 0); ("usb", Some 9); ("touch", Some 11)] in
   AddressSpaceAllocator.indices slots = [0; 9; 11] ∧
   AddressSpaceAllocator.register slots "uart" None
   = Ok ({| AddressSpaceAllocator.name := "uart";
            AddressSpaceAllocator.index := 1 |},
         slots ++ [{| AddressSpaceAllocator.name := "uart";
                      AddressSpaceAllocator.index := 1 |}])) ∧
  (∀ slots n, ∃ s,
     AddressSpaceAllocator.register slots n None = Ok (s, slots ++ [s]) ∧
     AddressSpaceAllocator.name s = n ∧
     (AddressSpaceAllocator.index s ∉ AddressSpaceAllocator.indices slots) ∧
     ∀ j, j < AddressSpaceAllocator.index s →
          j ∈ AddressSpaceAllocator.indices slots).
Proof.
  split; [by split|].
  intros slots n. eexists. split; [reflexivity|]. split; [done|].
  apply AllocatorFacts.lowest_unused_spec.
Qed.

Lemma uart_gets_lowest_unused_witness :
  let slots :=
    AddressSpaceAllocator.register_all []
      [("ctrl", Some 0); ("usb", Some 9); ("touch", Some 11)] in
  ∃ s,
    AddressSpaceAllocator.register slots "uart" None = Ok (s, slots ++ [s]) ∧
    AddressSpaceAllocator.index s = 1 ∧
    0 ∈ AddressSpaceAllocator.indices slots.
Proof.
  intros slots.
  destruct uart_gets_lowest_unused as [[_ Hscenario] Hgeneral].
  destruct (Hgeneral slots "uart") as (s & Hreg & _ & _ & Hbelow).
  exists s. split; [exact Hreg|].
  assert (AddressSpaceAllocator.index s = 1) as Hindex.
  { fold slots in Hscenario. rewrite Hscenario in Hreg.
    by injection Hreg as <-. }
  split; [exact Hindex|]. apply Hbelow. rewrite Hindex. lia.
Defined.

(** ** Memory regions *)

(** C2: whatever the sequence of registrations, two different accepted
    regions of one bus have no address in common; a region that has an
    address in common with a registered region of its bus is turned down with
    [Overlap]; so after the SPRAM region (base 0x10000000, size 0x20000) the
    region with base 0x10010000 and size 0x1000 on the same bus is turned
    down with [Overlap]. *)
Theorem mem_regions_disjoint :
  (∀ reqs,
     MemoryRegionRegistry.pairwise_disjoint
       (MemoryRegionRegistry.register_all [] reqs)) ∧
  (∀ regions n base sz bus r a,
     r ∈ regions → MemoryRegionRegistry.bus_id r = bus →
     MemoryRegionRegistry.contains r a → (base ≤ a < base + sz)%N →
     MemoryRegionRegistry.register regions n base sz bus = Err Overlap) ∧
  (∀ n1 n2 bus,
     let r1 :=
       {| MemoryRegionRegistry.name := n1;
          MemoryRegionRegistry.base_address := 0x10000000;
          MemoryRegionRegistry.size := 0x20000;
          MemoryRegionRegistry.bus_id := bus |} in
     spram_size = 0x20000%N ∧
     MemoryRegionRegistry.register [] n1 0x10000000 0x20000 bus
     = Ok (r1, [r1]) ∧
     MemoryRegionRegistry.register [r1] n2 0x10010000 0x1000 bus
     = Err Overlap).
Proof.
  split; [|split].
  - intros reqs. apply RegistryFacts.register_all_disjoint.
    apply RegistryFacts.pairwise_disjoint_nil.
  - apply RegistryFacts.register_overlap.
  - intros n1 n2 bus r1. split; [done|]. split; [done|].
    unfold MemoryRegionRegistry.register, MemoryRegionRegistry.intersects.
    simpl. by rewrite bool_decide_eq_true_2.
Qed.

Lemma mem_regions_disjoint_witness :
  (let regions :=
     MemoryRegionRegistry.register_all []
       [("sram", 0x10000000%N, 0x20000%N, 0); ("rom", 0x10010000%N, 0x1000%N, 0);
        ("csr", 0x10020000%N, 0x1000%N, 0)] in
   ∀ r1 r2, regions !! 0 = Some r1 → regions !! 1 = Some r2 →
            ¬ (MemoryRegionRegistry.contains r1 0x10020000%N ∧
               MemoryRegionRegistry.contains r2 0x10020000%N)) ∧
  (let sram :=
     {| MemoryRegionRegistry.name := "sram";
        MemoryRegionRegistry.base_address := 0x10000000;
        MemoryRegionRegistry.size := 0x20000;
        MemoryRegionRegistry.bus_id := 0 |} in
   MemoryRegionRegistry.register [sram] "rom" 0x10010000 0x1000 0
   = Err Overlap).
Proof.
  destruct mem_regions_disjoint as (Hinv & Hoverlap & _). split.
  - intros regions r1 r2 H1 H2.
    apply (Hinv [("sram", 0x10000000%N, 0x20000%N, 0);
                 ("rom", 0x10010000%N, 0x1000%N, 0);
                 ("csr", 0x10020000%N, 0x1000%N, 0)] 0 1 r1 r2);
      [lia|exact H1|exact H2|].
    injection H1 as <-. injection H2 as <-. reflexivity.
  - intros sram.
    apply (Hoverlap [sram] "rom" 0x10010000%N 0x1000%N 0 sram 0x10010000%N).
    + apply list_elem_of_singleton. reflexivity.
    + reflexivity.
    + unfold MemoryRegionRegistry.contains. simpl. lia.
    + lia.
Defined.

(** C8: a registration with size 0 is [InvalidSize], whatever the registry
    holds and whatever the name, the base address and the bus. *)
Theorem zero_size_invalid :
  ∀ regions n base bus,
    MemoryRegionRegistry.register regions n base 0 bus = Err InvalidSize.
Proof. intros regions n base bus. reflexivity. Qed.

(** ** Overrides *)

(** An override that goes through has found its stage's command and has put
    its text at the end of it; every other entry of the two templates is as
    it was, and nothing was launched. *)
Lemma apply_override_Ok_inv o w w' :
  apply_override o w = (Ok (), w') →
  ∃ old,
    command (override_stage o) (toolchain w) = Some old ∧
    command (override_stage o) (toolchain w')
    = Some (old +:+ override_text o) ∧
    (∀ t i,
       (t, i) ≠ (stage_template (override_stage o),
                 stage_position (override_stage o)) →
       get_template t (toolchain w') !! i = get_template t (toolchain w) !! i) ∧
    spawned w' = spawned w.
Proof.
  unfold apply_override, command.
  intros [(old & Hold & _ & ->)|(_ & ? & _)]%iadd_template_inv; [|done].
  exists old. split; [done|]. simpl. split; [|split; [|done]].
  - rewrite get_set_template. apply list_lookup_insert_eq.
    by eapply lookup_lt_Some.
  - intros t i Hne.
    destruct (decide (t = stage_template (override_stage o))) as [->|Ht].
    + rewrite get_set_template. apply list_lookup_insert_ne. congruence.
    + by rewrite get_set_template_ne.
Qed.

(** An override whose stage has a command goes through. *)
Lemma apply_override_Ok o w old :
  command (override_stage o) (toolchain w) = Some old →
  ∃ w', apply_override o w = (Ok (), w').
Proof.
  intros Hold. eexists. unfold apply_override.
  by apply iadd_template_Ok.
Qed.

(** C5: an override that is applied puts its text after the command of its
    stage: the command it found is the beginning of the command it leaves,
    the tokens it found are, in their order, the first tokens of the command
    it leaves, and no other entry of the templates changes.  The
    constructor's edits together do the same for both stages. *)
Theorem override_appends :
  (∀ o w w',
     apply_override o w = (Ok (), w') →
     ∃ old,
       command (override_stage o) (toolchain w) = Some old ∧
       command (override_stage o) (toolchain w')
       = Some (old +:+ override_text o) ∧
       render (override_stage o) (toolchain w')
       = Some (String.words old ++ String.words (override_text o)) ∧
       String.words old `prefix_of` String.words (old +:+ override_text o) ∧
       (∀ t i,
          (t, i) ≠ (stage_template (override_stage o),
                    stage_position (override_stage o)) →
          get_template t (toolchain w') !! i
          = get_template t (toolchain w) !! i)) ∧
  (∀ regions0 spram_bus p pnr_seed use_pll w soc w',
     BaseSoC_init regions0 spram_bus p pnr_seed use_pll w = (Ok soc, w') →
     ∀ s, ∃ old suffix,
       command s (toolchain w) = Some old ∧
       command s (toolchain w') = Some (old +:+ suffix) ∧
       String.words (old +:+ suffix) = String.words old ++ String.words suffix).
Proof.
  split.
  - intros o w w' (old & Hold & Hnew & Hframe & _)%apply_override_Ok_inv.
    exists old. split; [done|]. split; [done|].
    unfold render. rewrite Hnew. simpl. rewrite words_override.
    split; [done|]. split; [|done]. by apply prefix_app_r.
  - intros regions0 spram_bus p pnr_seed use_pll w soc w' Hinit.
    destruct (BaseSoC_init_Ok_inv _ _ _ _ _ _ _ _ Hinit)
      as (r & y & b & Hreg & Hy & Hb).
    rewrite (BaseSoC_init_Ok _ _ _ _ _ _ _ _ _ _ Hreg Hy Hb) in Hinit.
    injection Hinit as _ <-. unfold command. simpl.
    intros [|]; simpl.
    + exists y, " -relut -dffe_min_ce_use 4". split; [done|].
      split; [apply list_lookup_insert_eq; by eapply lookup_lt_Some|].
      apply (words_override y density_flags).
    + exists b, (" --seed " +:+ str pnr_seed +:+ placer_text p).
      split; [done|].
      split; [apply list_lookup_insert_eq; by eapply lookup_lt_Some|].
      exact (words_override b (seed (PyStr (str pnr_seed +:+ placer_text p)))).
Qed.

Lemma override_appends_witness :
  ∃ w',
    apply_override (placer (PyStr "heap")) fresh_world = (Ok (), w') ∧
    render place_and_route (toolchain w')
    = Some ["nextpnr-ice40"; "--json"; "{build_name}.json"; "--pcf";
            "{build_name}.pcf"; "--placer"; "heap"] ∧
    command synthesis (toolchain w')
    = Some "synth_ice40 -json {build_name}.json -top {build_name}".
Proof.
  destruct override_appends as [Hone _].
  eexists. split; [reflexivity|].
  destruct (Hone (placer (PyStr "heap")) fresh_world _ eq_refl)
    as (old & Hold & _ & Hrender & _ & Hframe).
  injection Hold as <-.
  split; [exact Hrender|].
  apply (Hframe YosysTemplate 2). discriminate.
Defined.

(** C4, as the code has it: the edits keep no record of what was applied.
    An override that went through goes through again, and the stage's
    command then ends with the override's text twice. *)
Theorem override_twice_appends_twice o w w1 :
  apply_override o w = (Ok (), w1) →
  ∃ old w2,
    command (override_stage o) (toolchain w) = Some old ∧
    apply_override o w1 = (Ok (), w2) ∧
    command (override_stage o) (toolchain w2)
    = Some (old +:+ override_text o +:+ override_text o).
Proof.
  intros (old & Hold & Hnew & _)%apply_override_Ok_inv.
  destruct (apply_override_Ok o w1 _ Hnew) as [w2 H2].
  exists old, w2. split; [done|]. split; [done|].
  apply apply_override_Ok_inv in H2 as (old' & Hold' & Hnew' & _).
  rewrite Hnew', <- string_app_assoc. congruence.
Qed.

Lemma override_twice_appends_twice_witness :
  ∃ w2,
    apply_override (seed (PyInt 0))
      (apply_override (seed (PyInt 0)) fresh_world).2 = (Ok (), w2) ∧
    command place_and_route (toolchain w2)
    = Some "nextpnr-ice40 --json {build_name}.json --pcf {build_name}.pcf --seed 0 --seed 0".
Proof.
  destruct (override_twice_appends_twice (seed (PyInt 0)) fresh_world _ eq_refl)
    as (old & w2 & Hold & H2 & Hcmd).
  exists w2. split; [exact H2|].
  injection Hold as <-. exact Hcmd.
Defined.

(** C4, as it is stated, fails: on the templates of the IceStorm toolchain
    the seed override is applied twice in a row, the second application
    returns like the first, and the command carries the seed flag twice.
    The same happens when two SoCs are constructed on one platform. *)
Lemma seed_override_twice_accepted :
  let w1 := (apply_override (seed (PyInt 0)) fresh_world).2 in
  let twice :=
    (BaseSoC_init [] 0 None (PyInt 0) true;;
     BaseSoC_init [] 0 None (PyInt 0) true) fresh_world in
  apply_override (seed (PyInt 0)) fresh_world = (Ok (), w1) ∧
  (apply_override (seed (PyInt 0)) w1).1 = Ok () ∧
  (apply_override (seed (PyInt 0)) w1).1 ≠ Err DuplicateOverride ∧
  command place_and_route (toolchain w1)
  = Some "nextpnr-ice40 --json {build_name}.json --pcf {build_name}.pcf --seed 0" ∧
  command place_and_route (toolchain (apply_override (seed (PyInt 0)) w1).2)
  = Some "nextpnr-ice40 --json {build_name}.json --pcf {build_name}.pcf --seed 0 --seed 0" ∧
  is_Ok twice.1 = true ∧
  command place_and_route (toolchain twice.2)
  = Some "nextpnr-ice40 --json {build_name}.json --pcf {build_name}.pcf --seed 0 --seed 0".
Proof. repeat split. discriminate. Qed.

(** C7: two runs that start from the same templates and apply the same
    overrides in the same order end alike and leave the same tokens for
    every stage, whatever else differs between them (what was launched
    before; for two constructions, the registry, the bus and the PLL
    flag). *)
Theorem render_deterministic :
  (∀ os w1 w2,
     toolchain w1 = toolchain w2 →
     (apply_overrides os w1).1 = (apply_overrides os w2).1 ∧
     ∀ s, render s (toolchain (apply_overrides os w1).2)
          = render s (toolchain (apply_overrides os w2).2)) ∧
  (∀ regions1 regions2 bus1 bus2 use_pll1 use_pll2 p pnr_seed
     w1 w2 soc1 soc2 w1' w2',
     toolchain w1 = toolchain w2 →
     BaseSoC_init regions1 bus1 p pnr_seed use_pll1 w1 = (Ok soc1, w1') →
     BaseSoC_init regions2 bus2 p pnr_seed use_pll2 w2 = (Ok soc2, w2') →
     ∀ s, render s (toolchain w1') = render s (toolchain w2')).
Proof.
  split.
  - intros os w1 [tc2 sp2] Htc. simpl in Htc. subst tc2.
    rewrite (apply_overrides_frame os w1 sp2). done.
  - intros regions1 regions2 bus1 bus2 use_pll1 use_pll2 p pnr_seed
      w1 w2 soc1 soc2 w1' w2' Htc H1 H2 s.
    destruct (BaseSoC_init_Ok_inv _ _ _ _ _ _ _ _ H1)
      as (r1 & y1 & b1 & Hreg1 & Hy1 & Hb1).
    destruct (BaseSoC_init_Ok_inv _ _ _ _ _ _ _ _ H2)
      as (r2 & y2 & b2 & Hreg2 & Hy2 & Hb2).
    rewrite (BaseSoC_init_Ok _ _ _ _ _ _ _ _ _ _ Hreg1 Hy1 Hb1) in H1.
    rewrite (BaseSoC_init_Ok _ _ _ _ _ _ _ _ _ _ Hreg2 Hy2 Hb2) in H2.
    injection H1 as _ <-. injection H2 as _ <-. simpl.
    rewrite Htc in Hy1, Hb1. rewrite Htc. congruence.
Qed.

Lemma render_deterministic_witness :
  let os := [seed (PyStr "7"); placer (PyStr "heap"); density_flags] in
  let w2 := {| toolchain := icestorm_toolchain; spawned := ["make"] |} in
  render place_and_route (toolchain (apply_overrides os fresh_world).2)
  = render place_and_route (toolchain (apply_overrides os w2).2) ∧
  render synthesis (toolchain (apply_overrides os fresh_world).2)
  = render synthesis (toolchain (apply_overrides os w2).2).
Proof.
  intros os w2. destruct render_deterministic as [Hruns _].
  destruct (Hruns os fresh_world w2 eq_refl) as [_ Hrender].
  split; apply Hrender.
Defined.

(** ** The command line and the constructor *)



(** *** Argument strings *)

(** A string that does not begin with a dash is an argument. *)
Lemma classify_no_dash v : String.prefix "-" v = false → classify v = KArg.
Proof.
  destruct v as [|c v]; [done|].
  unfold classify. destruct (Ascii.eqb_spec c "-") as [->|Hc]; [|done].
  by destruct v.
Qed.

Lemma is_argument_no_dash v :
  String.prefix "-" v = false → is_argument v = true.
Proof.
  intros Hv. unfold is_argument. rewrite (classify_no_dash v Hv).
  rewrite andb_true_r. apply negb_true_iff, bool_decide_eq_false.
  by intros ->.
Qed.

Lemma is_argument_inv v :
  is_argument v = true → v ≠ "--" ∧ classify v = KArg.
Proof.
  unfold is_argument.
  rewrite andb_true_iff, negb_true_iff, bool_decide_eq_false.
  intros [Hv Hk]. split; [done|]. by destruct (classify v).
Qed.

(** The equation of [scan] on a command line that is not empty. *)
Lemma scan_cons s rest :
  scan (s :: rest)
  = if bool_decide (s = "--") then ([], true, AtEnd)
    else
      match classify s with
      | KArg | KUnknown => mark_extra (scan rest)
      | KAmbiguous => ([], false, AtUsage)
      | KOpt ActHelp _ None => ([], false, AtHelp)
      | KOpt ActHelp long (Some e) =>
          ([], false, if negb long && only_h e then AtHelp else AtUsage)
      | KOpt ActNoPll _ None => push ArgNoPll (scan rest)
      | KOpt ActNoPll _ (Some _) => ([], false, AtUsage)
      | KOpt a _ (Some e) =>
          if bool_decide (e = "--") then ([], false, AtEmptyList)
          else push (store a e) (scan rest)
      | KOpt a _ None =>
          match rest with
          | v :: rest' =>
              if is_argument v then push (store a v) (scan rest')
              else ([], false, AtUsage)
          | [] => ([], false, AtUsage)
          end
      end.
Proof. by destruct rest. Qed.

Lemma ambiguous_cons s rest :
  ambiguous (s :: rest)
  = if bool_decide (s = "--") then false
    else match classify s with
         | KAmbiguous => true
         | _ => ambiguous rest
         end.
Proof. done. Qed.

Lemma push_inv a r args :
  push a r = (args, false, AtEnd) →
  ∃ args', r = (args', false, AtEnd) ∧ args = a :: args'.
Proof.
  destruct r as [[args' ex] st]. unfold push. simpl.
  intros [= <- -> ->]. eauto.
Qed.

(** A command line that is scanned to its end with nothing left over can be
    continued: the scan of the whole is the scan of the continuation after
    the options of the beginning, and the first pass finds in the whole what
    it finds in the continuation. *)
Lemma scan_app_end n a b args :
  length a ≤ n →
  ambiguous a = false →
  scan a = (args, false, AtEnd) →
  scan (a ++ b) = (args ++ (scan b).1.1, (scan b).1.2, (scan b).2) ∧
  ambiguous (a ++ b) = ambiguous b.
Proof.
  revert a args. induction n as [|n IH]; intros a args Hlen Hamb Hscan.
  { destruct a; [|simpl in Hlen; lia]. injection Hscan as <-. simpl.
    by destruct (scan b) as [[??]?]. }
  destruct a as [|s rest].
  { injection Hscan as <-. simpl. by destruct (scan b) as [[??]?]. }
  simpl in Hlen. rewrite <- app_comm_cons, scan_cons, ambiguous_cons.
  rewrite scan_cons in Hscan. rewrite ambiguous_cons in Hamb.
  case_bool_decide; [done|].
  destruct (classify s) as [|act long [e|]| |] eqn:Hk; try done.
  - (* the option has its argument glued on *)
    destruct act; [by destruct (negb long && only_h e)| | |done].
    + case_bool_decide; [done|].
      apply push_inv in Hscan as (args' & Hrest & ->).
      destruct (IH rest args') as [-> ->]; [lia|done|done|]. done.
    + case_bool_decide; [done|].
      apply push_inv in Hscan as (args' & Hrest & ->).
      destruct (IH rest args') as [-> ->]; [lia|done|done|]. done.
  - (* the option takes the next string, if it takes one *)
    destruct act; try done.
    + destruct rest as [|v rest']; [done|]. rewrite <- app_comm_cons.
      destruct (is_argument v) eqn:Hv; [|done].
      apply push_inv in Hscan as (args' & Hrest & ->).
      rewrite ambiguous_cons in Hamb |- *.
      apply is_argument_inv in Hv as [Hv1 Hv2].
      rewrite bool_decide_eq_false_2 in Hamb |- * by done.
      rewrite Hv2 in Hamb |- *. simpl in Hlen.
      destruct (IH rest' args') as [-> ->]; [lia|done|done|]. done.
    + destruct rest as [|v rest']; [done|]. rewrite <- app_comm_cons.
      destruct (is_argument v) eqn:Hv; [|done].
      apply push_inv in Hscan as (args' & Hrest & ->).
      rewrite ambiguous_cons in Hamb |- *.
      apply is_argument_inv in Hv as [Hv1 Hv2].
      rewrite bool_decide_eq_false_2 in Hamb |- * by done.
      rewrite Hv2 in Hamb |- *. simpl in Hlen.
      destruct (IH rest' args') as [-> ->]; [lia|done|done|]. done.
    + apply push_inv in Hscan as (args' & Hrest & ->).
      destruct (IH rest args') as [-> ->]; [lia|done|done|]. done.
Qed.

Lemma recognise_inv argv args :
  recognise argv = Recognised args →
  ambiguous argv = false ∧ scan argv = (args, false, AtEnd) ∧
  is_Ok (parse_args args) = true.
Proof.
  unfold recognise. destruct (ambiguous argv); [done|].
  destruct (scan argv) as [[args' ex] st].
  destruct (is_Ok (parse_args args')) eqn:Hok; [|done].
  destruct st; try done. destruct ex; [done|]. by intros [= ->].
Qed.

Lemma scan_seed v :
  scan ["--seed"; v]
  = if is_argument v then ([ArgSeed v], false, AtEnd)
    else ([], false, AtUsage).
Proof. rewrite scan_cons. simpl. by destruct (is_argument v). Qed.

Lemma ambiguous_seed v :
  is_argument v = true → ambiguous ["--seed"; v] = false.
Proof.
  intros [Hv Hk]%is_argument_inv.
  rewrite !ambiguous_cons, (bool_decide_eq_false_2 (v = "--")), Hk by done.
  done.
Qed.

(** [--seed v] at the end of a command line that is recognised: recognised
    with the seed [v] when [v] is an argument, a usage error when it is
    not. *)
Lemma recognise_seed_last argv args v :
  recognise argv = Recognised args →
  recognise (argv ++ ["--seed"; v])
  = if is_argument v then Recognised (args ++ [ArgSeed v]) else Usage.
Proof.
  intros (Hamb & Hscan & Hok)%recognise_inv.
  destruct (scan_app_end (length argv) argv ["--seed"; v] args)
    as [Hscan' Hamb']; [done..|].
  unfold recognise. rewrite Hscan', Hamb', scan_seed.
  destruct (is_argument v) eqn:Hv.
  - rewrite ambiguous_seed by done. simpl.
    unfold parse_args in *. rewrite parse_args_from_app.
    destruct (parse_args_from defaults args); done.
  - destruct (ambiguous ["--seed"; v]); [done|]. simpl.
    by rewrite app_nil_r, Hok.
Qed.

(** Command lines on which the recognition was run. *)
Example recognise_examples :
  recognise [] = Recognised [] ∧
  recognise ["--seed"; "3"; "--placer"; "heap"; "--no-pll"]
  = Recognised [ArgSeed "3"; ArgPlacer "heap"; ArgNoPll] ∧
  recognise ["--seed=-x"] = Recognised [ArgSeed "-x"] ∧
  recognise ["--seed"; "-5"] = Recognised [ArgSeed "-5"] ∧
  recognise ["--seed"; "-.5"] = Recognised [ArgSeed "-.5"] ∧
  recognise ["--seed"; "-"] = Recognised [ArgSeed "-"] ∧
  recognise ["--seed"; ""] = Recognised [ArgSeed ""] ∧
  recognise ["--seed"; "-x y"] = Recognised [ArgSeed "-x y"] ∧
  recognise ["--s"; "3"; "--pl=sa"; "--no"]
  = Recognised [ArgSeed "3"; ArgPlacer "sa"; ArgNoPll] ∧
  recognise ["--seed"; "-1e5"] = Usage ∧
  recognise ["--seed"; "--"; "-x"] = Usage ∧
  recognise ["--seed"; "-h"] = Usage ∧
  recognise ["--seed"] = Usage ∧
  recognise ["--seed"; "1"; "2"] = Usage ∧
  recognise ["--placer"; "bogus"] = Usage ∧
  recognise ["--placer"; "bogus"; "-h"] = Usage ∧
  recognise ["--no-pll=1"] = Usage ∧
  recognise ["--=x"] = Usage ∧
  recognise ["--foo"] = Usage ∧
  recognise ["--"] = Usage ∧
  recognise ["-hx"] = Usage ∧
  recognise ["-h"] = Help ∧
  recognise ["-hh"] = Help ∧
  recognise ["--he"] = Help ∧
  recognise ["--foo"; "-h"] = Help ∧
  recognise ["-h"; "--placer"; "bogus"] = Help ∧
  recognise ["--seed=--"] = EmptyList.
Proof. by vm_compute. Qed.

(** C9, as the code has it: a construction that returns has put " --seed "
    and the text of the seed at the end of the place-and-route command,
    before the placer flag if there is one; through [main] the text is "0"
    when the command line has no [--seed] and otherwise the argument of the
    last [--seed] as it was typed, never converted.  At the end of a command
    line that is recognised, [--seed v] is taken exactly when [v] is an
    argument string, and then [main] runs with [v] as the seed; every string
    that does not begin with a dash is an argument string. *)
Theorem seed_always_appended :
  (∀ regions0 spram_bus p pnr_seed use_pll w soc w',
     BaseSoC_init regions0 spram_bus p pnr_seed use_pll w = (Ok soc, w') →
     ∃ b,
       nextpnr_build_template (toolchain w) !! 1 = Some b ∧
       nextpnr_build_template (toolchain w') !! 1
       = Some (b +:+ " --seed " +:+ str pnr_seed +:+ placer_text p)) ∧
  (∀ regions0 spram_bus argv w w',
     main regions0 spram_bus argv w = (Ok (), w') →
     ∃ b,
       nextpnr_build_template (toolchain w) !! 1 = Some b ∧
       nextpnr_build_template (toolchain w') !! 1
       = Some (b +:+ " --seed " +:+ from_option id "0" (last_seed argv)
                 +:+ placer_text (PyStr <$> last_placer argv))) ∧
  (∀ argv args v,
     recognise argv = Recognised args →
     recognise (argv ++ ["--seed"; v])
     = if is_argument v then Recognised (args ++ [ArgSeed v]) else Usage) ∧
  (∀ v, String.prefix "-" v = false → is_argument v = true) ∧
  (∀ regions0 spram_bus argv args v w,
     recognise argv = Recognised args →
     is_argument v = true →
     main_argv regions0 spram_bus (argv ++ ["--seed"; v]) w
     = (Finished (main regions0 spram_bus (args ++ [ArgSeed v]) w).1,
        (main regions0 spram_bus (args ++ [ArgSeed v]) w).2)).
Proof.
  assert (∀ regions0 spram_bus p pnr_seed use_pll w soc w',
     BaseSoC_init regions0 spram_bus p pnr_seed use_pll w = (Ok soc, w') →
     ∃ b,
       nextpnr_build_template (toolchain w) !! 1 = Some b ∧
       nextpnr_build_template (toolchain w') !! 1
       = Some (b +:+ " --seed " +:+ str pnr_seed +:+ placer_text p)) as Hinit.
  { intros regions0 spram_bus p pnr_seed use_pll w soc w' Hinit.
    destruct (BaseSoC_init_Ok_inv _ _ _ _ _ _ _ _ Hinit)
      as (r & y & b & Hreg & Hy & Hb).
    rewrite (BaseSoC_init_Ok _ _ _ _ _ _ _ _ _ _ Hreg Hy Hb) in Hinit.
    injection Hinit as _ <-. exists b. split; [done|]. simpl.
    apply list_lookup_insert_eq. by eapply lookup_lt_Some. }
  split; [exact Hinit|]. split; [|split; [|split]].
  - intros regions0 spram_bus argv w w'
      (ns & soc & w1 & Hparse & Hsoc & ->)%main_Ok_inv.
    apply parse_args_Ok in Hparse as [Hseed Hplacer].
    destruct (Hinit _ _ _ _ _ _ _ _ Hsoc) as (b & Hb & Hb').
    exists b. split; [done|]. simpl.
    rewrite Hb', Hseed, Hplacer. by destruct (last_seed argv).
  - apply recognise_seed_last.
  - apply is_argument_no_dash.
  - intros regions0 spram_bus argv args v w Hargv Hv. unfold main_argv.
    rewrite (recognise_seed_last argv args v Hargv), Hv.
    by destruct (main regions0 spram_bus (args ++ [ArgSeed v]) w).
Qed.

Lemma seed_always_appended_witness :
  ∃ w',
    main_argv [] 0 ["--no-pll"; "--seed"; "0x2a; 42"] fresh_world
    = (Finished (Ok ()), w') ∧
    nextpnr_build_template (toolchain w') !! 1
    = Some "nextpnr-ice40 --json {build_name}.json --pcf {build_name}.pcf --seed 0x2a; 42".
Proof.
  destruct seed_always_appended as (_ & Hmain & _ & Hplain & Hend).
  assert (is_argument "0x2a; 42" = true) as Hv by (apply Hplain; reflexivity).
  eexists. split.
  - exact (Hend [] 0 ["--no-pll"] [ArgNoPll] "0x2a; 42" fresh_world eq_refl Hv).
  - destruct (Hmain [] 0 [ArgNoPll; ArgSeed "0x2a; 42"] fresh_world _ eq_refl)
      as (b & Hb & Hb').
    injection Hb as <-. exact Hb'.
Defined.

(** C9, as it is stated, fails: [-x] is a string, and [--seed -x] is not
    accepted.  [argparse] takes [-x] for an option, finds [--seed] without
    its argument and ends the program with a usage error before anything is
    constructed. *)
Lemma seed_dash_x_rejected :
  is_argument "-x" = false ∧
  recognise ["--seed"; "-x"] = Usage ∧
  main_argv [] 0 ["--seed"; "-x"] fresh_world
  = (Finished (Err InvalidConfiguration), fresh_world).
Proof. by vm_compute. Qed.

(** C10: with no placer, the construction leaves the build template as it
    found it except for the place-and-route command, which has the seed
    flag and the seed at its end and nothing after them; a command line
    without [--placer] gives the constructor no placer. *)
Theorem no_placer_only_seed :
  (∀ regions0 spram_bus pnr_seed use_pll w soc w',
     BaseSoC_init regions0 spram_bus None pnr_seed use_pll w = (Ok soc, w') →
     ∃ b,
       nextpnr_build_template (toolchain w) !! 1 = Some b ∧
       nextpnr_build_template (toolchain w')
       = <[1 := b +:+ " --seed " +:+ str pnr_seed]>
           (nextpnr_build_template (toolchain w))) ∧
  (∀ argv ns,
     Forall (λ a, placer_of_arg a = None) argv →
     parse_args argv = Ok ns → args_placer ns = None) ∧
  (∀ regions0 spram_bus argv w w',
     Forall (λ a, placer_of_arg a = None) argv →
     main regions0 spram_bus argv w = (Ok (), w') →
     ∃ b,
       nextpnr_build_template (toolchain w) !! 1 = Some b ∧
       nextpnr_build_template (toolchain w')
       = <[1 := b +:+ " --seed " +:+ from_option id "0" (last_seed argv)]>
           (nextpnr_build_template (toolchain w))).
Proof.
  assert (∀ argv, Forall (λ a, placer_of_arg a = None) argv →
                  last_placer argv = None) as Hnone.
  { intros argv Hargv. unfold last_placer.
    induction Hargv as [|a argv Ha _ IH]; [done|].
    by rewrite last_omap_cons, IH. }
  assert (∀ regions0 spram_bus pnr_seed use_pll w soc w',
     BaseSoC_init regions0 spram_bus None pnr_seed use_pll w = (Ok soc, w') →
     ∃ b,
       nextpnr_build_template (toolchain w) !! 1 = Some b ∧
       nextpnr_build_template (toolchain w')
       = <[1 := b +:+ " --seed " +:+ str pnr_seed]>
           (nextpnr_build_template (toolchain w))) as Hinit.
  { intros regions0 spram_bus pnr_seed use_pll w soc w' Hinit.
    destruct (BaseSoC_init_Ok_inv _ _ _ _ _ _ _ _ Hinit)
      as (r & y & b & Hreg & Hy & Hb).
    rewrite (BaseSoC_init_Ok _ _ _ _ _ _ _ _ _ _ Hreg Hy Hb) in Hinit.
    injection Hinit as _ <-. exists b. split; [done|]. simpl.
    by rewrite string_app_nil_r. }
  split; [exact Hinit|]. split.
  - intros argv ns Hargv [_ ->]%parse_args_Ok. by apply Hnone.
  - intros regions0 spram_bus argv w w' Hargv
      (ns & soc & w1 & Hparse & Hsoc & ->)%main_Ok_inv.
    apply parse_args_Ok in Hparse as [Hseed Hplacer].
    rewrite Hplacer, (Hnone _ Hargv) in Hsoc.
    destruct (Hinit _ _ _ _ _ _ _ Hsoc) as (b & Hb & Hb').
    exists b. split; [done|]. simpl.
    rewrite Hb', Hseed. by destruct (last_seed argv).
Qed.

Lemma no_placer_only_seed_witness :
  ∃ w',
    main [] 0 [ArgNoPll; ArgSeed "5"] fresh_world = (Ok (), w') ∧
    nextpnr_build_template (toolchain w')
    = [ "yosys -q -l {build_name}.rpt {build_name}.ys";
        "nextpnr-ice40 --json {build_name}.json --pcf {build_name}.pcf --seed 5";
        "icepack {build_name}.txt {build_name}.bin" ].
Proof.
  destruct no_placer_only_seed as (_ & _ & Hmain).
  eexists. split; [reflexivity|].
  assert (Forall (λ a, placer_of_arg a = None) [ArgNoPll; ArgSeed "5"])
    as Hargv by (repeat constructor).
  destruct (Hmain [] 0 [ArgNoPll; ArgSeed "5"] fresh_world _ Hargv eq_refl)
    as (b & Hb & Hb').
  injection Hb as <-. exact Hb'.
Defined.

(** * Further properties of the constructor and of [main] *)

(** ** What the constructor leaves alone *)

Lemma same_but_refl es w : same_but es w w.
Proof. by split. Qed.

Lemma same_but_trans es w1 w2 w3 :
  same_but es w1 w2 → same_but es w2 w3 → same_but es w1 w3.
Proof.
  intros (Hs1 & Hl1 & He1) (Hs2 & Hl2 & He2). split; [congruence|]. split.
  - intros t. by rewrite Hl2.
  - intros t i Hti. by rewrite He2, He1.
Qed.

(** An edit, whether it goes through or raises, touches its own entry at
    most. *)
Lemma iadd_template_same_but es t i s w r w' :
  (t, i) ∈ es → iadd_template t i s w = (r, w') → same_but es w w'.
Proof.
  intros Hes [(old & Hold & _ & ->)|(_ & _ & ->)]%iadd_template_inv;
    [|apply same_but_refl].
  split; [done|]. simpl. split.
  - intros t'. destruct (decide (t = t')) as [<-|Ht].
    + by rewrite get_set_template, length_insert.
    + by rewrite get_set_template_ne.
  - intros t' j Hj. destruct (decide (t = t')) as [<-|Ht].
    + rewrite get_set_template. apply list_lookup_insert_ne.
      intros ->. done.
    + by rewrite get_set_template_ne.
Qed.

Lemma BaseSoC_init_same_but regions0 spram_bus p pnr_seed use_pll w r w' :
  BaseSoC_init regions0 spram_bus p pnr_seed use_pll w = (r, w') →
  same_but [(YosysTemplate, 2); (BuildTemplate, 1)] w w'.
Proof.
  set (es := [(YosysTemplate, 2); (BuildTemplate, 1)]).
  assert ((YosysTemplate, 2) ∈ es) as Hy by (apply list_elem_of_here).
  assert ((BuildTemplate, 1) ∈ es) as Hb
    by (apply list_elem_of_further, list_elem_of_here).
  unfold BaseSoC_init, mbind, M_bind, lift.
  destruct (MemoryRegionRegistry.register _ _ _ _ _) as [reg|e];
    [|intros [= _ <-]; apply same_but_refl].
  destruct (iadd_template YosysTemplate 2 _ w) as [[[]|e] w1] eqn:H1;
    apply (iadd_template_same_but es _ _ _ _ _ _ Hy) in H1;
    [|by intros [= _ <-]].
  destruct (iadd_template BuildTemplate 1 _ w1) as [[[]|e] w2] eqn:H2;
    apply (iadd_template_same_but es _ _ _ _ _ _ Hb) in H2;
    [|intros [= _ <-]; by eapply same_but_trans].
  assert (same_but es w w2) as H12 by (by eapply same_but_trans).
  destruct p as [v|]; simpl; [|by intros [= _ <-]].
  destruct (iadd_template BuildTemplate 1 _ w2) as [[[]|e] w3] eqn:H3;
    apply (iadd_template_same_but es _ _ _ _ _ _ Hb) in H3;
    intros [= _ <-]; by eapply same_but_trans.
Qed.

(** X1: however a construction ends, by returning or by raising, it has
    launched nothing, both templates have as many entries as before, and
    every entry other than entry 2 of the yosys template and entry 1 of the
    build template is as it was. *)
Theorem constructor_frame regions0 spram_bus p pnr_seed use_pll w r w' :
  BaseSoC_init regions0 spram_bus p pnr_seed use_pll w = (r, w') →
  spawned w' = spawned w ∧
  length (nextpnr_yosys_template (toolchain w'))
  = length (nextpnr_yosys_template (toolchain w)) ∧
  length (nextpnr_build_template (toolchain w'))
  = length (nextpnr_build_template (toolchain w)) ∧
  (∀ i, i ≠ 2 →
        nextpnr_yosys_template (toolchain w') !! i
        = nextpnr_yosys_template (toolchain w) !! i) ∧
  (∀ i, i ≠ 1 →
        nextpnr_build_template (toolchain w') !! i
        = nextpnr_build_template (toolchain w) !! i).
Proof.
  intros (Hsp & Hlen & Hent)%BaseSoC_init_same_but.
  split; [done|]. split; [apply (Hlen YosysTemplate)|].
  split; [apply (Hlen BuildTemplate)|]. split.
  - intros i Hi. apply (Hent YosysTemplate i).
    rewrite !elem_of_cons, elem_of_nil. intros [[=]|[[=]|[]]]. done.
  - intros i Hi. apply (Hent BuildTemplate i).
    rewrite !elem_of_cons, elem_of_nil. intros [[=]|[[=]|[]]]. done.
Qed.

Lemma constructor_frame_witness :
  let w' := (BaseSoC_init [] 0 (Some (PyStr "sa")) (PyInt 3) true fresh_world).2 in
  spawned w' = [] ∧
  nextpnr_build_template (toolchain w') !! 0
  = Some "yosys -q -l {build_name}.rpt {build_name}.ys" ∧
  nextpnr_yosys_template (toolchain w') !! 0 = Some "{read_files}".
Proof.
  intros w'.
  destruct (constructor_frame [] 0 (Some (PyStr "sa")) (PyInt 3) true
              fresh_world _ w' eq_refl) as (Hsp & _ & _ & Hy & Hb).
  split; [exact Hsp|]. split; [apply (Hb 0); lia|apply (Hy 0); lia].
Defined.

(** ** How the constructor can end *)



(** X3: a construction whose SPRAM region is turned down raises the
    registry's error, and one whose yosys template has no entry 2 raises
    [IndexError]; in both cases the store is left exactly as it was. *)
Theorem constructor_fails_before_edit regions0 spram_bus p pnr_seed use_pll w :
  (∀ e,
     MemoryRegionRegistry.register regions0 "sram" 0x10000000 spram_size
       spram_bus = Err e →
     BaseSoC_init regions0 spram_bus p pnr_seed use_pll w = (Err e, w)) ∧
  (∀ reg,
     MemoryRegionRegistry.register regions0 "sram" 0x10000000 spram_size
       spram_bus = Ok reg →
     nextpnr_yosys_template (toolchain w) !! 2 = None →
     BaseSoC_init regions0 spram_bus p pnr_seed use_pll w
     = (Err IndexError, w)).
Proof.
  split.
  - intros e H. unfold BaseSoC_init, mbind, M_bind, lift. by rewrite H.
  - intros reg H Hy. unfold BaseSoC_init, mbind, M_bind, lift. rewrite H.
    by rewrite (iadd_template_Err YosysTemplate 2 _ w Hy).
Qed.

Lemma constructor_fails_before_edit_witness :
  let rom :=
    {| MemoryRegionRegistry.name := "rom";
       MemoryRegionRegistry.base_address := 0x1001f000;
       MemoryRegionRegistry.size := 0x2000;
       MemoryRegionRegistry.bus_id := 0 |} in
  let short :=
    {| toolchain :=
         {| nextpnr_yosys_template := ["{read_files}"; "synth_ice40"];
            nextpnr_build_template := ["yosys"; "nextpnr-ice40"] |};
       spawned := [] |} in
  BaseSoC_init [rom] 0 None (PyInt 0) true fresh_world
  = (Err Overlap, fresh_world) ∧
  BaseSoC_init [] 0 None (PyInt 0) true short = (Err IndexError, short).
Proof.
  intros rom short. split.
  - destruct (constructor_fails_before_edit [rom] 0 None (PyInt 0) true
                fresh_world) as [Hreg _].
    apply Hreg. reflexivity.
  - destruct (constructor_fails_before_edit [] 0 None (PyInt 0) true short)
      as [_ Hyosys].
    eapply Hyosys; reflexivity.
Defined.

(** X4: when the yosys template has its entry 2 but the build template has
    no entry 1, the construction raises [IndexError] after the density
    flags were written: the yosys template stays edited. *)
Theorem constructor_partial_edit regions0 spram_bus p pnr_seed use_pll w reg y :
  MemoryRegionRegistry.register regions0 "sram" 0x10000000 spram_size
    spram_bus = Ok reg →
  nextpnr_yosys_template (toolchain w) !! 2 = Some y →
  nextpnr_build_template (toolchain w) !! 1 = None →
  BaseSoC_init regions0 spram_bus p pnr_seed use_pll w
  = (Err IndexError,
     {| toolchain :=
          {| nextpnr_yosys_template :=
               <[2 := y +:+ " -relut -dffe_min_ce_use 4"]>
                 (nextpnr_yosys_template (toolchain w));
             nextpnr_build_template := nextpnr_build_template (toolchain w) |};
        spawned := spawned w |}).
Proof.
  intros H Hy Hb. unfold BaseSoC_init, mbind, M_bind, lift. rewrite H.
  rewrite (iadd_template_Ok YosysTemplate 2 _ w y Hy). simpl.
  by rewrite iadd_template_Err.
Qed.

Lemma constructor_partial_edit_witness :
  BaseSoC_init [] 0 None (PyInt 0) true
    {| toolchain :=
         {| nextpnr_yosys_template := ["{read_files}"; "attrmap"; "synth_ice40"];
            nextpnr_build_template := ["make"] |};
       spawned := [] |}
  = (Err IndexError,
     {| toolchain :=
          {| nextpnr_yosys_template :=
               ["{read_files}"; "attrmap";
                "synth_ice40 -relut -dffe_min_ce_use 4"];
             nextpnr_build_template := ["make"] |};
        spawned := [] |}).
Proof.
  exact (constructor_partial_edit [] 0 None (PyInt 0) true
           {| toolchain :=
                {| nextpnr_yosys_template :=
                     ["{read_files}"; "attrmap"; "synth_ice40"];
                   nextpnr_build_template := ["make"] |};
              spawned := [] |}
           _ "synth_ice40" eq_refl eq_refl eq_refl).
Defined.

(** ** The tokens of the edited commands *)

(** A flag and its argument, put after a command with blanks around the
    flag, come out as the flag followed by the words of the argument. *)
Lemma words_flag old flag arg c1 c2 :
  Ascii.is_space c1 = true → Ascii.is_space c2 = true →
  String.words (old +:+ String c1 (flag +:+ String c2 arg))
  = String.words old ++ String.words flag ++ String.words arg.
Proof.
  intros H1 H2. by rewrite !words_app_space.
Qed.

Lemma words_seed old s :
  String.words (old +:+ " --seed " +:+ s)
  = String.words old ++ "--seed" :: String.words s.
Proof.
  exact (words_flag old "--seed" s Ascii.Space Ascii.Space eq_refl eq_refl).
Qed.

Lemma words_placer old s :
  String.words (old +:+ " --placer " +:+ s)
  = String.words old ++ "--placer" :: String.words s.
Proof.
  exact (words_flag old "--placer" s Ascii.Space Ascii.Space eq_refl eq_refl).
Qed.

Lemma words_seed_placer old sd p :
  String.words (old +:+ " --seed " +:+ sd +:+ placer_text p)
  = String.words old ++ "--seed" :: String.words sd
    ++ match p with
       | Some v => "--placer" :: String.words (str v)
       | None => []
       end.
Proof.
  destruct p as [v|]; simpl.
  - change (old +:+ " --seed " +:+ sd +:+ " --placer " +:+ str v)
      with (old +:+ (" --seed " +:+ sd) +:+ " --placer " +:+ str v).
    rewrite <- string_app_assoc, words_placer, words_seed.
    by rewrite <- app_assoc.
  - by rewrite string_app_nil_r, words_seed, app_nil_r.
Qed.

(** X5: after a construction that returned, the synthesis command has its
    old tokens followed by [-relut -dffe_min_ce_use 4], and the
    place-and-route command has its old tokens followed by [--seed], the
    words of the seed's text, and then, if a placer was given, [--placer]
    and the words of the placer's text: the seed always comes before the
    placer, and a seed text with blanks in it yields several tokens. *)
Theorem constructor_tokens regions0 spram_bus p pnr_seed use_pll w soc w' :
  BaseSoC_init regions0 spram_bus p pnr_seed use_pll w = (Ok soc, w') →
  ∃ y b,
    command synthesis (toolchain w) = Some y ∧
    command place_and_route (toolchain w) = Some b ∧
    render synthesis (toolchain w')
    = Some (String.words y ++ ["-relut"; "-dffe_min_ce_use"; "4"]) ∧
    render place_and_route (toolchain w')
    = Some (String.words b ++ "--seed" :: String.words (str pnr_seed)
            ++ match p with
               | Some v => "--placer" :: String.words (str v)
               | None => []
               end).
Proof.
  intros Hinit.
  destruct (BaseSoC_init_Ok_inv _ _ _ _ _ _ _ _ Hinit)
    as (r & y & b & Hreg & Hy & Hb).
  rewrite (BaseSoC_init_Ok _ _ _ _ _ _ _ _ _ _ Hreg Hy Hb) in Hinit.
  injection Hinit as _ <-. exists y, b. split; [done|]. split; [done|].
  unfold render, command. simpl.
  rewrite !list_lookup_insert_eq by (by eapply lookup_lt_Some). simpl.
  split; f_equal.
  - exact (words_override y density_flags).
  - apply words_seed_placer.
Qed.

Lemma constructor_tokens_witness :
  render place_and_route
    (toolchain
       (BaseSoC_init [] 0 (Some (PyStr "heap")) (PyStr "1 --randomize-seed")
          true fresh_world).2)
  = Some ["nextpnr-ice40"; "--json"; "{build_name}.json"; "--pcf";
          "{build_name}.pcf"; "--seed"; "1"; "--randomize-seed";
          "--placer"; "heap"].
Proof.
  destruct (constructor_tokens [] 0 (Some (PyStr "heap"))
              (PyStr "1 --randomize-seed") true fresh_world _ _ eq_refl)
    as (y & b & _ & Hb & _ & Hrender).
  injection Hb as <-. exact Hrender.
Defined.

(** An argument that [last_placer] returns stands on the command line. *)
Lemma last_placer_elem_of argv v :
  last_placer argv = Some v → ArgPlacer v ∈ argv.
Proof.
  unfold last_placer. intros Hlast%last_Some_elem_of.
  apply list_elem_of_omap in Hlast as (a & Ha & Hv).
  destruct a as [?|v'|]; simplify_eq/=. done.
Qed.

Lemma words_choice v : v ∈ placer_choices → String.words v = [v].
Proof.
  unfold placer_choices. rewrite !elem_of_cons, elem_of_nil.
  by intros [->|[->|[]]].
Qed.

(** X6: when [main] returns, the place-and-route command has its old tokens
    followed by [--seed] and the words of the seed ("0" when the command
    line has no [--seed]), and then [--placer] and the selected placer when
    the command line has a [--placer]; the selected placer is "sa" or
    "heap".  The order on the command line does not matter: the seed comes
    first. *)
Theorem main_tokens regions0 spram_bus argv w w' :
  main regions0 spram_bus argv w = (Ok (), w') →
  ∃ b,
    command place_and_route (toolchain w) = Some b ∧
    render place_and_route (toolchain w')
    = Some (String.words b
            ++ "--seed" :: String.words (from_option id "0" (last_seed argv))
            ++ placer_tokens (last_placer argv)) ∧
    (∀ v, last_placer argv = Some v → v = "sa" ∨ v = "heap").
Proof.
  intros (ns & soc & w1 & Hparse & Hsoc & ->)%main_Ok_inv.
  assert (∀ v, last_placer argv = Some v → v ∈ placer_choices) as Hchoice.
  { intros v Hv%last_placer_elem_of.
    assert (Forall valid_arg argv) as Hvalid.
    { apply (parse_args_from_is_Ok defaults). unfold parse_args in Hparse.
      by rewrite Hparse. }
    rewrite Forall_forall in Hvalid. exact (Hvalid _ Hv). }
  apply parse_args_Ok in Hparse as [Hseed Hplacer].
  destruct (BaseSoC_init_Ok_inv _ _ _ _ _ _ _ _ Hsoc)
    as (r & y & b & Hreg & Hy & Hb).
  rewrite (BaseSoC_init_Ok _ _ _ _ _ _ _ _ _ _ Hreg Hy Hb) in Hsoc.
  injection Hsoc as _ <-. exists b. split; [done|]. split.
  - unfold render, command. simpl.
    rewrite list_lookup_insert_eq by (by eapply lookup_lt_Some). simpl.
    f_equal. rewrite words_seed_placer, Hseed, Hplacer. f_equal. f_equal.
    destruct (last_seed argv) as [s|]; simpl; f_equal.
    all: destruct (last_placer argv) as [v|]; simpl; [|done].
    all: by rewrite words_choice by (by apply Hchoice).
  - intros v Hv%Hchoice. unfold placer_choices in Hv.
    rewrite !elem_of_cons, elem_of_nil in Hv. tauto.
Qed.

Lemma main_tokens_witness :
  render place_and_route
    (toolchain
       (main [] 0 [ArgPlacer "sa"; ArgSeed "9"; ArgPlacer "heap"]
          fresh_world).2)
  = Some ["nextpnr-ice40"; "--json"; "{build_name}.json"; "--pcf";
          "{build_name}.pcf"; "--seed"; "9"; "--placer"; "heap"].
Proof.
  destruct (main_tokens [] 0 [ArgPlacer "sa"; ArgSeed "9"; ArgPlacer "heap"]
              fresh_world _ eq_refl) as (b & Hb & Hrender & _).
  injection Hb as <-. exact Hrender.
Defined.

(** ** Constructing more than once *)



(** ** Overrides of different stages *)



(** ** Telling seeds apart *)

Lemma string_length_app (s t : string) :
  String.length (s +:+ t) = String.length s + String.length t.
Proof.
  induction s as [|c s IH]; [done|].
  rewrite string_app_cons. simpl. by rewrite IH.
Qed.

Lemma string_app_inj_l (t s1 s2 : string) : s1 +:+ t = s2 +:+ t → s1 = s2.
Proof.
  revert s2. induction s1 as [|c s1 IH]; intros [|c' s2] H.
  - done.
  - apply (f_equal String.length) in H.
    rewrite !string_length_app in H. simpl in H. lia.
  - apply (f_equal String.length) in H.
    rewrite !string_length_app in H. simpl in H. lia.
  - rewrite !string_app_cons in H. injection H as -> H. f_equal. by apply IH.
Qed.

(** X10: the seed can be read back from the command.  Two constructions on
    the same templates with the same placer leave the same place-and-route
    command exactly when the texts of their seeds are the same; for integer
    seeds that is when the integers are the same. *)
Theorem seed_determines_command :
  (∀ regions1 regions2 bus1 bus2 use_pll1 use_pll2 p seed1 seed2
     w soc1 soc2 w1 w2,
     BaseSoC_init regions1 bus1 p seed1 use_pll1 w = (Ok soc1, w1) →
     BaseSoC_init regions2 bus2 p seed2 use_pll2 w = (Ok soc2, w2) →
     (command place_and_route (toolchain w1)
      = command place_and_route (toolchain w2)
      ↔ str seed1 = str seed2)) ∧
  (∀ z1 z2, str (PyInt z1) = str (PyInt z2) ↔ z1 = z2).
Proof.
  split.
  - intros regions1 regions2 bus1 bus2 use_pll1 use_pll2 p seed1 seed2
      w soc1 soc2 w1 w2 H1 H2.
    destruct (BaseSoC_init_Ok_inv _ _ _ _ _ _ _ _ H1)
      as (r1 & y1 & b1 & Hreg1 & Hy1 & Hb1).
    destruct (BaseSoC_init_Ok_inv _ _ _ _ _ _ _ _ H2)
      as (r2 & y2 & b2 & Hreg2 & Hy2 & Hb2).
    rewrite (BaseSoC_init_Ok _ _ _ _ _ _ _ _ _ _ Hreg1 Hy1 Hb1) in H1.
    rewrite (BaseSoC_init_Ok _ _ _ _ _ _ _ _ _ _ Hreg2 Hy2 Hb2) in H2.
    injection H1 as _ <-. injection H2 as _ <-.
    assert (b2 = b1) as -> by congruence.
    unfold command. simpl.
    rewrite !list_lookup_insert_eq by (by eapply lookup_lt_Some).
    split; [|by intros ->].
    intros [= H]. apply (inj (String.append b1)) in H.
    apply (inj (String.append " --seed ")) in H.
    by apply string_app_inj_l in H.
  - intros z1 z2. simpl. split; [apply (inj pretty)|by intros ->].
Qed.

Lemma seed_determines_command_witness :
  command place_and_route
    (toolchain (BaseSoC_init [] 0 None (PyInt 1) true fresh_world).2)
  ≠ command place_and_route
      (toolchain (BaseSoC_init [] 0 None (PyInt 2) true fresh_world).2).
Proof.
  destruct seed_determines_command as [Hcmd Hint].
  intros Heq.
  apply (Hcmd [] [] 0 0 true true None (PyInt 1) (PyInt 2) fresh_world
           _ _ _ _ eq_refl eq_refl) in Heq.
  apply Hint in Heq. discriminate Heq.
Defined.

(** ** What [parse_args] stores *)

Lemma omap_nil_Forall {A B} (f : A → option B) l :
  omap f l = [] ↔ Forall (λ a, f a = None) l.
Proof.
  induction l as [|a l IH]; [by split; [constructor|]|].
  rewrite Forall_cons, <- IH.
  change (omap f (a :: l))
    with (match f a with Some y => y :: omap f l | None => omap f l end).
  destruct (f a); intuition congruence.
Qed.


Lemma parse_args_from_no_pll ns argv ns' :
  parse_args_from ns argv = Ok ns' →
  (args_no_pll ns' = true ↔ args_no_pll ns = true ∨ ArgNoPll ∈ argv).
Proof.
  revert ns. induction argv as [|a argv IH]; intros ns.
  - intros [= <-]. rewrite elem_of_nil. tauto.
  - rewrite elem_of_cons.
    destruct a as [v|v|]; simpl; [|case_decide; [|done]|];
      intros ->%IH; simpl; intuition congruence.
Qed.



(** X12: on a command line that is accepted, the PLL is switched off exactly
    when [--no-pll] is there, the seed is the integer 0 exactly when no
    [--seed] is there, and there is no placer exactly when no [--placer] is
    there. *)
Theorem parse_args_defaults argv ns :
  parse_args argv = Ok ns →
  (args_no_pll ns = true ↔ ArgNoPll ∈ argv) ∧
  (args_seed ns = PyInt 0 ↔ Forall (λ a, seed_of_arg a = None) argv) ∧
  (args_placer ns = None ↔ Forall (λ a, placer_of_arg a = None) argv).
Proof.
  intros Hparse. split; [|split].
  - apply parse_args_from_no_pll in Hparse. simpl in Hparse.
    intuition congruence.
  - apply parse_args_Ok in Hparse as [-> _].
    rewrite <- omap_nil_Forall, <- last_None. fold (last_seed argv).
    destruct (last_seed argv); simpl; intuition congruence.
  - apply parse_args_Ok in Hparse as [_ ->].
    by rewrite <- omap_nil_Forall, <- last_None.
Qed.

Lemma parse_args_defaults_witness :
  ∃ ns,
    parse_args [ArgPlacer "sa"] = Ok ns ∧
    args_no_pll ns = false ∧ args_seed ns = PyInt 0.
Proof.
  eexists. split; [reflexivity|].
  destruct (parse_args_defaults [ArgPlacer "sa"] _ eq_refl)
    as (_ & Hseed & _).
  split; [reflexivity|]. apply Hseed. repeat constructor.
Defined.

(** ** What [main] does before it builds *)

(** X13: [main] reaches the build only after the command line was accepted
    and the SoC constructed.  A command line that [parse_args] turns down
    ends [main] with that error and the store untouched; a construction that
    raises ends [main] with the same error and the store as the constructor
    left it, nothing launched; and when [main] returns, the constructor was
    called with the last placer, with the last seed or else the integer 0,
    and with the PLL on unless [--no-pll] stood on the command line, and it
    returned. *)
Theorem main_constructs_before_building regions0 spram_bus argv w :
  (∀ e, parse_args argv = Err e →
        main regions0 spram_bus argv w = (Err e, w)) ∧
  (∀ ns e w1,
     parse_args argv = Ok ns →
     BaseSoC_init regions0 spram_bus (PyStr <$> args_placer ns)
       (args_seed ns) (negb (args_no_pll ns)) w = (Err e, w1) →
     main regions0 spram_bus argv w = (Err e, w1) ∧
     spawned w1 = spawned w) ∧
  (∀ w',
     main regions0 spram_bus argv w = (Ok (), w') →
     ∃ soc w1,
       BaseSoC_init regions0 spram_bus (PyStr <$> last_placer argv)
         (from_option PyStr (PyInt 0) (last_seed argv))
         (negb (bool_decide (ArgNoPll ∈ argv))) w = (Ok soc, w1)).
Proof.
  split; [|split].
  - intros e He. unfold main, mbind, M_bind, lift. by rewrite He.
  - intros ns e w1 Hparse Hinit. unfold main, mbind, M_bind, lift.
    rewrite Hparse, Hinit. split; [done|].
    by apply BaseSoC_init_same_but in Hinit as [? _].
  - intros w' (ns & soc & w1 & Hparse & Hsoc & ->)%main_Ok_inv.
    exists soc, w1.
    destruct (parse_args_Ok _ _ Hparse) as [<- <-].
    apply parse_args_from_no_pll in Hparse. simpl in Hparse.
    replace (bool_decide (ArgNoPll ∈ argv)) with (args_no_pll ns); [done|].
    destruct (args_no_pll ns).
    + symmetry. apply bool_decide_eq_true. intuition congruence.
    + symmetry. apply bool_decide_eq_false. intuition congruence.
Qed.

Lemma main_constructs_before_building_witness :
  let short :=
    {| toolchain :=
         {| nextpnr_yosys_template := ["{read_files}"; "attrmap"; "synth_ice40"];
            nextpnr_build_template := ["make"] |};
       spawned := [] |} in
  main [] 0 [ArgPlacer "bogus"] fresh_world
  = (Err InvalidConfiguration, fresh_world) ∧
  (main [] 0 [ArgSeed "3"] short).1 = Err IndexError ∧
  spawned (main [] 0 [ArgSeed "3"] short).2 = [].
Proof.
  intros short. split.
  - destruct (main_constructs_before_building [] 0 [ArgPlacer "bogus"]
                fresh_world) as (Hparse & _ & _).
    apply Hparse. reflexivity.
  - destruct (main_constructs_before_building [] 0 [ArgSeed "3"] short)
      as (_ & Hinit & _).
    destruct (Hinit _ IndexError _ eq_refl eq_refl) as [-> Hspawned].
    split; [reflexivity|exact Hspawned].
Defined.

(** ** The SPRAM region *)

(** X15: a construction that returns has kept the regions it found, in
    their order, and has put one region after them: "sram" on the SPRAM's
    bus, holding exactly the 128 KiB of addresses from 0x10000000 up to, but
    not including, 0x10020000.  If the regions it found were apart on every
    bus, so are the regions it leaves. *)
Theorem constructor_registers_sram regions0 spram_bus p pnr_seed use_pll
    w soc w' :
  BaseSoC_init regions0 spram_bus p pnr_seed use_pll w = (Ok soc, w') →
  ∃ r,
    mem_regions soc = regions0 ++ [r] ∧
    MemoryRegionRegistry.name r = "sram" ∧
    MemoryRegionRegistry.bus_id r = spram_bus ∧
    (∀ a, MemoryRegionRegistry.contains r a
          ↔ (0x10000000 ≤ a < 0x10020000)%N) ∧
    (MemoryRegionRegistry.pairwise_disjoint regions0 →
     MemoryRegionRegistry.pairwise_disjoint (mem_regions soc)).
Proof.
  intros Hinit.
  destruct (BaseSoC_init_Ok_inv _ _ _ _ _ _ _ _ Hinit)
    as (r & y & b & Hreg & _ & _).
  exists r. pose proof Hreg as (_ & Hr & Hregions & _)%RegistryFacts.register_Ok_inv.
  split; [done|]. subst r. simpl. split; [done|]. split; [done|]. split.
  - intros a. unfold MemoryRegionRegistry.contains, spram_size. simpl. lia.
  - intros Hinv. by eapply RegistryFacts.register_disjoint.
Qed.

Lemma constructor_registers_sram_witness :
  let rom :=
    {| MemoryRegionRegistry.name := "rom";
       MemoryRegionRegistry.base_address := 0;
       MemoryRegionRegistry.size := 0x2000;
       MemoryRegionRegistry.bus_id := 0 |} in
  ∃ r,
    mem_regions (match (BaseSoC_init [rom] 0 None (PyInt 0) true fresh_world).1
                 with
                 | Ok soc => soc
                 | Err _ => {| crg_use_pll := true; mem_regions := [] |}
                 end) = [rom; r] ∧
    MemoryRegionRegistry.contains r 0x1001ffff%N.
Proof.
  intros rom.
  destruct (constructor_registers_sram [rom] 0 None (PyInt 0) true fresh_world
              _ _ eq_refl) as (r & Hregions & _ & _ & Hcontains & _).
  exists r. split; [exact Hregions|]. apply Hcontains. lia.
Defined.
